(** * elevenlabs-go: the text chunker and the input-streaming session driver

    A shallow embedding of [chunker.go] and of [doInputStreamingRequest]
    ([client.go]).  Go strings are byte sequences; they are modelled by
    [string], whose characters are the 256 byte values. *)

From Stdlib Require Import String Ascii List Bool Arith ZArith DecimalString Lia.
Import ListNotations.
Local Open Scope list_scope.
Local Open Scope string_scope.

(** ** Byte strings *)

Module GoString.

(** A string given by its byte values. *)
Definition bytes (l : list nat) : string :=
  string_of_list_ascii (map ascii_of_nat l).

(** Concatenation of a sequence of strings. *)
Definition join (l : list string) : string := fold_right append "" l.

(** [strings.HasPrefix(s, sub)]:
    [len(s) >= len(sub) && s[:len(sub)] == sub]. *)
Definition HasPrefix (s sub : string) : bool := String.prefix sub s.

(** [strings.HasSuffix(s, sub)]:
    [len(s) >= len(sub) && s[len(s)-len(sub):] == sub]. *)
Definition HasSuffix (s sub : string) : bool :=
  Nat.leb (String.length sub) (String.length s) &&
  (substring (String.length s - String.length sub) (String.length sub) s =? sub)%string.

(** The conversion [string(b)] of a byte [b]: Go converts an integer to
    the UTF-8 encoding of the code point of that value, so a byte below
    0x80 gives a one-byte string and a byte from 0x80 up gives two bytes. *)
Definition string_of_byte (b : ascii) : string :=
  let n := nat_of_ascii b in
  if Nat.ltb n 128 then String b ""
  else String (ascii_of_nat (192 + n / 64))
         (String (ascii_of_nat (128 + n mod 64)) "").

End GoString.

Import GoString.

(** ** chunker.go *)

Module Chunker.

(** The seventh entry of [splitters] as the source file has it: the eight
    bytes C3 A2 E2 82 AC E2 80 9D. *)
Definition dash_splitter : string :=
  bytes [195; 162; 226; 130; 172; 226; 128; 157].

Definition splitters : list string :=
  ["."; ","; "?"; "!"; ";"; ":"; dash_splitter; "-"; "("; ")"; "["; "]"; "}"; " "].

Definition endsWith (s sub : string) : bool := HasSuffix s sub.

Definition endsWithAny (s : string) (subs : list string) : bool :=
  existsb (fun sub => endsWith s sub) subs.

Definition startsWithAny (s : string) (subs : list string) : bool :=
  existsb (fun sub => HasPrefix s sub) subs.

(** What the two flushing branches send: the text itself when it already
    ends with a space, the text and one space otherwise. *)
Definition spaced (s : string) : string :=
  if endsWith s " " then s else s ++ " ".

(** One iteration of [for text := range text]: the fragment sent on
    [chunks], if any, and the new [buffer].  [text[0]] is only evaluated
    when [text] starts with a splitter, hence is not empty
    ([startsWithAny_empty]); the empty case of the match is never taken. *)
Definition chunk_token (buffer text : string) : option string * string :=
  if endsWithAny buffer splitters then
    (Some (spaced buffer), text)
  else if startsWithAny text splitters then
    match text with
    | EmptyString => (None, buffer)
    | String b rest => (Some (spaced (buffer ++ string_of_byte b)), rest)
    end
  else
    (None, buffer ++ text).

(** The [range] loop over the tokens received until the channel is
    closed: the fragments sent, in order, and the buffer left. *)
Fixpoint range_loop (buffer : string) (text : list string) : list string * string :=
  match text with
  | [] => ([], buffer)
  | t :: rest =>
      let '(out, buffer') := chunk_token buffer t in
      let '(outs, final) := range_loop buffer' rest in
      (match out with Some f => f :: outs | None => outs end, final)
  end.

(** Operations on the [chunks] channel. *)
Inductive chan_op : Type :=
| Send (s : string)
| Close.

(** What is sent once the input channel is closed:
    [if buffer != "" { chunks <- buffer }]. *)
Definition final_sends (buffer : string) : list string :=
  if (buffer =? "")%string then [] else [buffer].

(** The fragments sent on [chunks] for the tokens [text]. *)
Definition fragments (text : list string) : list string :=
  let '(outs, buffer) := range_loop "" text in (outs ++ final_sends buffer)%list.

(** [textChunker]: every operation performed on [chunks]. *)
Definition textChunker (text : list string) : list chan_op :=
  (map Send (fragments text) ++ [Close])%list.

(** The fragments sent while the input channel is open. *)
Definition sent_while_open (text : list string) : list string :=
  fst (range_loop "" text).

(** The buffer when the input channel is found closed. *)
Definition buffer_at_close (text : list string) : string :=
  snd (range_loop "" text).

(** *** Properties stated about the chunker

    A fragment is its body, or its body and the one space a flush adds. *)
Definition up_to_flush_space (frag body : string) : Prop :=
  frag = body \/ frag = body ++ " ".

(** The fragments give back the tokens: once the spaces added by flushes
    are taken away, their concatenation is the one of the tokens. *)
Definition reconstructs (frags tokens : list string) : Prop :=
  exists bodies : list string,
    Forall2 up_to_flush_space frags bodies /\ join bodies = join tokens.

(** A token whose first byte, if it has one, is below 0x80. *)
Definition ascii_head (t : string) : Prop :=
  match t with
  | EmptyString => True
  | String b _ => nat_of_ascii b < 128
  end.

(** The first fragment stops after the word [w]: it is the word, with or
    without the space of the flush. *)
Definition first_fragment_is_word (w : string) (frags : list string) : Prop :=
  exists f rest, frags = f :: rest /\ up_to_flush_space f w.

End Chunker.

(** ** encoding/base64 *)

Module Base64.

(** The errors a session can meet. *)
Inductive error : Type :=
| NetError (msg : string)            (* an error of the websocket connection *)
| CorruptInputError (offset : nat).  (* [base64.CorruptInputError] *)

(** The value of a character of the standard alphabet. *)
Definition sextet (c : ascii) : option nat :=
  let n := nat_of_ascii c in
  if Nat.leb 65 n && Nat.leb n 90 then Some (n - 65)
  else if Nat.leb 97 n && Nat.leb n 122 then Some (n - 71)
  else if Nat.leb 48 n && Nat.leb n 57 then Some (n + 4)
  else if Nat.eqb n 43 then Some 62
  else if Nat.eqb n 47 then Some 63
  else None.

Definition is_newline (c : ascii) : bool :=
  let n := nat_of_ascii c in Nat.eqb n 10 || Nat.eqb n 13.

Definition is_pad (c : ascii) : bool := Nat.eqb (nat_of_ascii c) 61.

(** Skipping newline characters from index [idx] on: what is left of the
    input, and the index it starts at. *)
Fixpoint skip_newlines (s : string) (idx : nat) : string * nat :=
  match s with
  | EmptyString => (s, idx)
  | String c rest =>
      if is_newline c then skip_newlines rest (S idx) else (s, idx)
  end.

(** After the padding only newline characters may follow: anything else is
    trailing garbage, reported at its own index. *)
Definition after_padding (s : string) (idx : nat) (bytes : list ascii)
    : error + list ascii :=
  match skip_newlines s idx with
  | (EmptyString, _) => inr bytes
  | (String _ _, i) => inl (CorruptInputError i)
  end.

(** After the first padding character of a two-character quantum: newlines
    are skipped, then a second padding character is expected.  At the end of
    the input the error is reported at the length of the input, at another
    character one index before it. *)
Definition second_pad (s : string) (idx : nat) (bytes : list ascii)
    : error + list ascii :=
  match skip_newlines s idx with
  | (EmptyString, i) => inl (CorruptInputError i)
  | (String c rest, i) =>
      if is_pad c then after_padding rest (S i) bytes
      else inl (CorruptInputError (i - 1))
  end.

(** The decoding loop: [quantum] holds the sextets read since the last
    complete group, [out] the bytes decoded so far, in reverse.  Input that
    ends inside a quantum is reported at [si - j]: the index reached minus
    the number of sextets of the quantum. *)
Fixpoint decode_loop (s : string) (idx : nat) (quantum : list nat)
    (out : list ascii) : error + list ascii :=
  match s with
  | EmptyString =>
      match quantum with
      | [] => inr (rev out)
      | _ => inl (CorruptInputError (idx - length quantum))
      end
  | String c rest =>
      if is_newline c then decode_loop rest (S idx) quantum out
      else if is_pad c then
        match quantum with
        | [a; b] =>
            second_pad rest (S idx)
              (rev (ascii_of_nat (a * 4 + b / 16) :: out))
        | [a; b; d] =>
            after_padding rest (S idx)
              (rev (ascii_of_nat ((b mod 16) * 16 + d / 4)
                    :: ascii_of_nat (a * 4 + b / 16) :: out))
        | _ => inl (CorruptInputError idx)
        end
      else
        match sextet c with
        | None => inl (CorruptInputError idx)
        | Some v =>
            match quantum with
            | [a; b; d] =>
                decode_loop rest (S idx) []
                  (ascii_of_nat ((d mod 4) * 64 + v)
                   :: ascii_of_nat ((b mod 16) * 16 + d / 4)
                   :: ascii_of_nat (a * 4 + b / 16) :: out)
            | _ => decode_loop rest (S idx) (quantum ++ [v])%list out
            end
        end
  end.

(** A decoder for the standard alphabet with padding, standing for
    [base64.StdEncoding.DecodeString] where a concrete one is needed. *)
Definition DecodeString (s : string) : error + list ascii :=
  decode_loop s 0 [] [].

End Base64.

(** ** client.go: [doInputStreamingRequest]

    The function runs two activities, the reader goroutine and the input
    watcher of the calling goroutine, over shared variables.  It is
    modelled by a transition system: a state holds the shared variables
    and the place each activity has reached, a label says which activity
    moves and what the world answers (a frame read, a failed write, a
    token received), and [step] runs the one statement concerned.  Shared
    variables are read and written one statement at a time. *)

Module Session.

Export Base64.

Module In.
Record StreamingAlignmentSegment : Type := {
  CharStartTimesMs : list Z;
  CharDurationsMs : list Z;
  Chars : list string
}.

Record StreamingInputResponse : Type := {
  Audio : string;
  IsFinal : bool;
  NormalizedAlignment : StreamingAlignmentSegment;
  Alignment : StreamingAlignmentSegment
}.
End In.

Module Out.
(** [Audio] is a byte slice; the nil slice is the empty list. *)
Record StreamingOutputResponse : Type := {
  Audio : list ascii;
  IsFinal : bool;
  NormalizedAlignment : In.StreamingAlignmentSegment;
  Alignment : In.StreamingAlignmentSegment
}.
End Out.

Record textChunk : Type := {
  Text : string;
  TryTriggerGeneration : bool
}.

(** What the input watcher writes on the connection: a [textChunk], or
    the map [{"text": ""}] that ends the input. *)
Inductive frame : Type :=
| TextFrame (ch : textChunk)
| EndOfInput.

(** The places of the reader goroutine. *)
Inductive reader_pc : Type :=
| RNotStarted
| RSelect                                   (* [select]: [<-ctx.Done()] or [default] *)
| RCheckActive                              (* [if !driverActive] *)
| RRead                                     (* [conn.ReadJSON(&input)] *)
| RFault (err : error)                      (* [if driverActive] of either failure *)
| RErrSend (err : error)                    (* [errCh <- err] *)
| RSetError                                 (* [driverError = true] *)
| RCancel                                   (* [inputCancel()] *)
| RPipe (input : In.StreamingInputResponse) (b : list ascii)
                                            (* [AudioResponsePipe.Write(b)] *)
| RDeliver (input : In.StreamingInputResponse)
                                            (* [ResponseChannel <- response] *)
| RDone.                                    (* returned; [wg.Done()] *)

(** The places of the calling goroutine. *)
Inductive writer_pc : Type :=
| WHandshake                                (* parse, dial, [conn.WriteJSON(req)] *)
| WSelect                                   (* [select] of [InputWatcher] *)
| WWrite (chunk : string)                   (* [conn.WriteJSON(ch)] *)
| WErrSend (err : error)                    (* [errCh <- err] in the loop *)
| WFinalCheck                               (* [if driverActive && !driverError] *)
| WFinalWrite                               (* [conn.WriteJSON] of the last frame *)
| WFinalErrSend (err : error)               (* [errCh <- err] after the loop *)
| WClose                                    (* [conn.Close()] *)
| WWait                                     (* [wg.Wait()] *)
| WResult                                   (* the last [select] on [errCh] *)
| WReturned (r : option error).             (* the value returned; [None] is nil *)

Record State : Type := mkState {
  driverActive : bool;
  driverError : bool;
  errCh : option error;          (* a channel of capacity one *)
  inputCtx_done : bool;          (* [inputCancel()] was called *)
  ctx_done : bool;               (* the parent context was cancelled *)
  conn_closed : bool;
  reader : reader_pc;
  writer : writer_pc;
  (* what went through each channel, sink and connection so far *)
  conn_written : list frame;                        (* frames written on [conn] *)
  AudioResponsePipe : list (list ascii);            (* writes that succeeded *)
  ResponseChannel : list Out.StreamingOutputResponse; (* values sent *)
  TextReader : list string;                         (* values received *)
  decoded : list In.StreamingInputResponse;  (* frames read and decoded *)
  piped : list In.StreamingInputResponse;    (* those whose audio was written *)
  faults : list error                        (* values sent on [errCh] *)
}.

Definition init : State :=
  {| driverActive := true; driverError := false; errCh := None;
     inputCtx_done := false; ctx_done := false; conn_closed := false;
     reader := RNotStarted; writer := WHandshake;
     conn_written := []; AudioResponsePipe := []; ResponseChannel := [];
     TextReader := []; decoded := []; piped := []; faults := [] |}.

Definition set_driverActive (v : bool) (s : State) : State :=
  mkState v (driverError s) (errCh s) (inputCtx_done s) (ctx_done s)
    (conn_closed s) (reader s) (writer s) (conn_written s)
    (AudioResponsePipe s) (ResponseChannel s) (TextReader s) (decoded s)
    (piped s) (faults s).

Definition set_driverError (v : bool) (s : State) : State :=
  mkState (driverActive s) v (errCh s) (inputCtx_done s) (ctx_done s)
    (conn_closed s) (reader s) (writer s) (conn_written s)
    (AudioResponsePipe s) (ResponseChannel s) (TextReader s) (decoded s)
    (piped s) (faults s).

Definition set_errCh (v : option error) (s : State) : State :=
  mkState (driverActive s) (driverError s) v (inputCtx_done s) (ctx_done s)
    (conn_closed s) (reader s) (writer s) (conn_written s)
    (AudioResponsePipe s) (ResponseChannel s) (TextReader s) (decoded s)
    (piped s) (faults s).

Definition set_inputCtx_done (v : bool) (s : State) : State :=
  mkState (driverActive s) (driverError s) (errCh s) v (ctx_done s)
    (conn_closed s) (reader s) (writer s) (conn_written s)
    (AudioResponsePipe s) (ResponseChannel s) (TextReader s) (decoded s)
    (piped s) (faults s).

Definition set_ctx_done (v : bool) (s : State) : State :=
  mkState (driverActive s) (driverError s) (errCh s) (inputCtx_done s) v
    (conn_closed s) (reader s) (writer s) (conn_written s)
    (AudioResponsePipe s) (ResponseChannel s) (TextReader s) (decoded s)
    (piped s) (faults s).

Definition set_conn_closed (v : bool) (s : State) : State :=
  mkState (driverActive s) (driverError s) (errCh s) (inputCtx_done s)
    (ctx_done s) v (reader s) (writer s) (conn_written s)
    (AudioResponsePipe s) (ResponseChannel s) (TextReader s) (decoded s)
    (piped s) (faults s).

Definition set_reader (v : reader_pc) (s : State) : State :=
  mkState (driverActive s) (driverError s) (errCh s) (inputCtx_done s)
    (ctx_done s) (conn_closed s) v (writer s) (conn_written s)
    (AudioResponsePipe s) (ResponseChannel s) (TextReader s) (decoded s)
    (piped s) (faults s).

Definition set_writer (v : writer_pc) (s : State) : State :=
  mkState (driverActive s) (driverError s) (errCh s) (inputCtx_done s)
    (ctx_done s) (conn_closed s) (reader s) v (conn_written s)
    (AudioResponsePipe s) (ResponseChannel s) (TextReader s) (decoded s)
    (piped s) (faults s).

Definition write_conn (f : frame) (s : State) : State :=
  mkState (driverActive s) (driverError s) (errCh s) (inputCtx_done s)
    (ctx_done s) (conn_closed s) (reader s) (writer s)
    (conn_written s ++ [f])%list
    (AudioResponsePipe s) (ResponseChannel s) (TextReader s) (decoded s)
    (piped s) (faults s).

Definition write_pipe (input : In.StreamingInputResponse) (b : list ascii)
    (s : State) : State :=
  mkState (driverActive s) (driverError s) (errCh s) (inputCtx_done s)
    (ctx_done s) (conn_closed s) (reader s) (writer s) (conn_written s)
    (AudioResponsePipe s ++ [b])%list (ResponseChannel s) (TextReader s)
    (decoded s) (piped s ++ [input])%list (faults s).

Definition send_response (r : Out.StreamingOutputResponse) (s : State) : State :=
  mkState (driverActive s) (driverError s) (errCh s) (inputCtx_done s)
    (ctx_done s) (conn_closed s) (reader s) (writer s) (conn_written s)
    (AudioResponsePipe s) (ResponseChannel s ++ [r])%list (TextReader s)
    (decoded s) (piped s) (faults s).

Definition recv_text (chunk : string) (s : State) : State :=
  mkState (driverActive s) (driverError s) (errCh s) (inputCtx_done s)
    (ctx_done s) (conn_closed s) (reader s) (writer s) (conn_written s)
    (AudioResponsePipe s) (ResponseChannel s) (TextReader s ++ [chunk])%list
    (decoded s) (piped s) (faults s).

Definition log_decoded (input : In.StreamingInputResponse) (s : State) : State :=
  mkState (driverActive s) (driverError s) (errCh s) (inputCtx_done s)
    (ctx_done s) (conn_closed s) (reader s) (writer s) (conn_written s)
    (AudioResponsePipe s) (ResponseChannel s) (TextReader s)
    (decoded s ++ [input])%list (piped s) (faults s).

(** [errCh <- err]: possible only while the channel holds nothing. *)
Definition send_errCh (err : error) (s : State) : option State :=
  match errCh s with
  | Some _ => None
  | None =>
      Some (mkState (driverActive s) (driverError s) (Some err)
              (inputCtx_done s) (ctx_done s) (conn_closed s) (reader s)
              (writer s) (conn_written s) (AudioResponsePipe s)
              (ResponseChannel s) (TextReader s) (decoded s) (piped s)
              (faults s ++ [err])%list)
  end.

(** The value sent on [ResponseChannel] for an inbound frame. *)
Definition response_of (input : In.StreamingInputResponse) :
    Out.StreamingOutputResponse :=
  {| Out.Audio := [];
     Out.IsFinal := In.IsFinal input;
     Out.NormalizedAlignment := In.NormalizedAlignment input;
     Out.Alignment := In.Alignment input |}.

Inductive Label : Type :=
| Handshake (r : option error)   (* the dial and first write: failed with [r], or not *)
| Cancel                         (* the parent context is cancelled *)
| Reader                         (* the reader runs a statement that waits for nothing *)
| ReadOk (input : In.StreamingInputResponse)   (* [ReadJSON] returns a frame *)
| ReadErr (err : error)                        (* [ReadJSON] fails *)
| PipeOk                         (* [AudioResponsePipe.Write] succeeds *)
| PipeErr (err : error)          (* [AudioResponsePipe.Write] fails *)
| Deliver                        (* the send on [ResponseChannel] completes *)
| InputDone                      (* the watcher's [select] takes [<-inputCtx.Done()] *)
| CtxDone                        (* the watcher's [select] takes [<-ctx.Done()] *)
| Recv (chunk : option string)   (* it takes [<-TextReader]: a token, or closed *)
| WriteOk                        (* the watcher's [conn.WriteJSON] succeeds *)
| WriteErr (err : error)         (* the watcher's [conn.WriteJSON] fails *)
| Writer.                        (* the watcher runs a statement that waits for nothing
                                    but [errCh] or the reader *)

Definition result (s : State) : option (option error) :=
  match writer s with
  | WReturned r => Some r
  | _ => None
  end.

Section Step.

(** [base64.StdEncoding.DecodeString]. *)
Variable decode : string -> error + list ascii.

Definition step_reader (s : State) : option State :=
  match reader s with
  | RSelect =>
      Some (set_reader (if ctx_done s then RDone else RCheckActive) s)
  | RCheckActive =>
      Some (set_reader (if driverActive s then RRead else RDone) s)
  | RFault err =>
      Some (set_reader (if driverActive s then RErrSend err else RDone) s)
  | RErrSend err =>
      option_map (set_reader RSetError) (send_errCh err s)
  | RSetError =>
      Some (set_reader RCancel (set_driverError true s))
  | RCancel =>
      Some (set_reader RDone (set_inputCtx_done true s))
  | _ => None
  end.

Definition step_writer (s : State) : option State :=
  match writer s with
  | WErrSend err =>
      option_map (set_writer WFinalCheck) (send_errCh err s)
  | WFinalCheck =>
      Some (set_writer
              (if driverActive s && negb (driverError s)
               then WFinalWrite else WClose) s)
  | WFinalErrSend err =>
      option_map (set_writer WClose) (send_errCh err s)
  | WClose =>
      Some (set_writer WWait (set_conn_closed true s))
  | WWait =>
      match reader s with
      | RDone => Some (set_writer WResult s)
      | _ => None
      end
  | WResult =>
      match errCh s with
      | Some readErr =>
          Some (set_writer
                  (WReturned (if driverActive s || driverError s
                              then Some readErr else None))
                  (set_errCh None s))
      | None => Some (set_writer (WReturned None) s)
      end
  | _ => None
  end.

Definition step (l : Label) (s : State) : option State :=
  match l with
  | Handshake r =>
      match writer s with
      | WHandshake =>
          match r with
          | Some err => Some (set_writer (WReturned (Some err)) s)
          | None =>
              if ctx_done s then None
              else Some (set_writer WSelect (set_reader RSelect s))
          end
      | _ => None
      end
  | Cancel => Some (set_ctx_done true s)
  | Reader => step_reader s
  | ReadOk input =>
      match reader s with
      | RRead =>
          if conn_closed s then None
          else
            match decode (In.Audio input) with
            | inl err => Some (set_reader (RFault err) s)
            | inr b => Some (set_reader (RPipe input b) (log_decoded input s))
            end
      | _ => None
      end
  | ReadErr err =>
      match reader s with
      | RRead => Some (set_reader (RFault err) s)
      | _ => None
      end
  | PipeOk =>
      match reader s with
      | RPipe input b =>
          Some (set_reader (RDeliver input) (write_pipe input b s))
      | _ => None
      end
  | PipeErr _ =>
      match reader s with
      | RPipe _ _ => Some (set_reader RSelect s)
      | _ => None
      end
  | Deliver =>
      match reader s with
      | RDeliver input =>
          Some (set_reader RSelect (send_response (response_of input) s))
      | _ => None
      end
  | InputDone =>
      match writer s with
      | WSelect =>
          if inputCtx_done s
          then Some (set_writer WFinalCheck (set_driverActive false s))
          else None
      | _ => None
      end
  | CtxDone =>
      match writer s with
      | WSelect =>
          if ctx_done s
          then Some (set_writer WFinalCheck (set_driverActive false s))
          else None
      | _ => None
      end
  | Recv chunk =>
      match writer s with
      | WSelect =>
          match chunk with
          | None => Some (set_writer WFinalCheck s)
          | Some c =>
              if driverActive s
              then Some (set_writer (WWrite c) (recv_text c s))
              else Some (set_writer WFinalCheck (recv_text c s))
          end
      | _ => None
      end
  | WriteOk =>
      match writer s with
      | WWrite c =>
          Some (set_writer WSelect
                  (write_conn (TextFrame {| Text := c; TryTriggerGeneration := true |}) s))
      | WFinalWrite =>
          Some (set_writer WClose (write_conn EndOfInput s))
      | _ => None
      end
  | WriteErr err =>
      match writer s with
      | WWrite _ => Some (set_writer (WErrSend err) s)
      | WFinalWrite =>
          Some (set_writer (if ctx_done s then WClose else WFinalErrSend err) s)
      | _ => None
      end
  | Writer => step_writer s
  end.

(** A schedule is run label by label, as long as each label is possible. *)
Fixpoint run (s : State) (sched : list Label) : option State :=
  match sched with
  | [] => Some s
  | l :: rest =>
      match step l s with
      | Some s' => run s' rest
      | None => None
      end
  end.

(** The states a session can be in. *)
Definition reachable (s : State) : Prop :=
  exists sched : list Label, run init sched = Some s.

End Step.

(** The text frames among the frames written on the connection. *)
Fixpoint text_frames (l : list frame) : list textChunk :=
  match l with
  | [] => []
  | TextFrame ch :: rest => ch :: text_frames rest
  | EndOfInput :: rest => text_frames rest
  end.

(** The input watcher has not left [InputWatcher] for good. *)
Definition in_loop (w : writer_pc) : bool :=
  match w with
  | WHandshake | WSelect | WWrite _ => true
  | _ => false
  end.

(** Places the input watcher only reaches and stays at with
    [driverActive] set. *)
Definition holds_active (w : writer_pc) : bool :=
  match w with
  | WHandshake | WSelect | WWrite _ | WErrSend _ | WFinalWrite
  | WFinalErrSend _ => true
  | _ => false
  end.

(** The reader has left its loop after a failure. *)
Definition reader_stopping (r : reader_pc) : bool :=
  match r with
  | RFault _ | RErrSend _ | RSetError | RCancel | RDone => true
  | _ => false
  end.

(** What holds of the shared variables in every state of a session. *)
Record Inv (s : State) : Prop := {
  inv_active : holds_active (writer s) = true -> driverActive s = true;
  inv_slot :
    match writer s with
    | WReturned r =>
        errCh s = None /\ (reader s = RDone -> r = hd_error (faults s))
    | _ => errCh s = hd_error (faults s)
    end;
  inv_once : length (faults s) <= 1;
  inv_join :
    match writer s with
    | WHandshake => reader s = RNotStarted /\ faults s = []
    | WResult => reader s = RDone
    | WReturned _ => reader s = RDone \/ reader s = RNotStarted
    | _ => reader s <> RNotStarted
    end;
  inv_flag :
    faults s <> [] ->
    driverError s = true \/ reader s = RSetError \/
    (driverActive s = true /\ in_loop (writer s) = false)
}.

(** The reader is not about to send on [errCh], nor past that send. *)
Definition quiet_reader (r : reader_pc) : bool :=
  match r with
  | RErrSend _ | RSetError | RCancel => false
  | _ => true
  end.

(** The input watcher has left its loop and writes no more, or has
    returned nil. *)
Definition quiet_writer (w : writer_pc) : bool :=
  match w with
  | WFinalCheck | WClose | WWait | WResult | WReturned None => true
  | _ => false
  end.

(** The driver was shut down with nothing recorded: no fault can be
    recorded any more. *)
Definition Quiet (s : State) : Prop :=
  driverActive s = false /\ errCh s = None /\ faults s = [] /\
  quiet_writer (writer s) = true /\ quiet_reader (reader s) = true.

(** The reader has stopped reading; [sent] and [written] are what it had
    sent and written by then. *)
Definition Stopped (sent : list Out.StreamingOutputResponse)
    (written : list (list ascii)) (s : State) : Prop :=
  reader_stopping (reader s) = true /\ writer s <> WHandshake /\
  ResponseChannel s = sent /\ AudioResponsePipe s = written.

(** The input watcher waits to send [err] on [errCh], which holds
    [first]. *)
Definition Blocked (first err : error) (s : State) : Prop :=
  writer s = WFinalErrSend err /\ errCh s = Some first.

(** The fault [e] is the one recorded. *)
Definition Recorded (e : error) (s : State) : Prop :=
  Inv s /\ faults s = [e].

(** The watcher left its loop with [driverActive] still set and the
    reader then met the error [e]: it is recording it, or has. *)
Definition ReadFailed (e : error) (s : State) : Prop :=
  Inv s /\ driverActive s = true /\ in_loop (writer s) = false /\
  match reader s with
  | RFault e' | RErrSend e' => e' = e
  | RSetError | RCancel | RDone => faults s = [e]
  | _ => False
  end.

(** The reader goroutine has returned. *)
Definition Joined (s : State) : Prop :=
  Inv s /\ reader s = RDone.

(** The text of every text frame written on the connection. *)
Definition written_texts (s : State) : list string :=
  map Text (text_frames (conn_written s)).

Section IO.

Variable decode : string -> error + list ascii.

(** What holds of the channels, the sink and the connection in every
    state of a session. *)
Record InvIO (s : State) : Prop := {
  io_pipe :
    match reader s with
    | RPipe input b => decode (In.Audio input) = inr b
    | _ => True
    end;
  io_deliver :
    match reader s with
    | RDeliver input =>
        exists p, piped s = (p ++ [input])%list /\
                  ResponseChannel s = map response_of p
    | _ => ResponseChannel s = map response_of (piped s)
    end;
  io_audio :
    map (fun input => decode (In.Audio input)) (piped s) =
    map inr (AudioResponsePipe s);
  io_decoded :
    match reader s with
    | RPipe _ _ => length (piped s) < length (decoded s)
    | _ => length (piped s) <= length (decoded s)
    end;
  io_text :
    match writer s with
    | WHandshake | WSelect => TextReader s = written_texts s
    | WWrite c => TextReader s = (written_texts s ++ [c])%list
    | _ => exists pending, TextReader s = (written_texts s ++ pending)%list /\
                           length pending <= 1
    end;
  io_try :
    Forall (fun ch => TryTriggerGeneration ch = true)
      (text_frames (conn_written s))
}.

End IO.

(** Unfolding of a step on a state given by its fields. *)
Ltac session_red H :=
  cbv beta iota delta
    [step step_reader step_writer send_errCh option_map
     set_driverActive set_driverError set_errCh set_inputCtx_done
     set_ctx_done set_conn_closed set_reader set_writer write_conn
     write_pipe send_response recv_text log_decoded
     driverActive driverError errCh inputCtx_done ctx_done conn_closed
     reader writer conn_written AudioResponsePipe ResponseChannel
     TextReader decoded piped faults negb andb orb] in H.

(** Case analysis of a step [H : step decode l s = Some s']. *)
Ltac step_inversion H :=
  match type of H with
  | step _ ?l ?s = Some _ =>
      destruct s as [act err ch ic cd cc r w cw ap rc tr dec pip fl];
      destruct l, r, w; session_red H; try discriminate H;
      repeat match type of H with
             | context [match ?x with _ => _ end] =>
                 first [is_var x | match x with ?f _ => is_var f end];
                 destruct x eqn:?; session_red H
             end;
      try discriminate H; injection H as <-
  end.

End Session.

(** ** Sessions used as examples *)

Module Scenarios.

Import Session.

Definition closed_conn : error := NetError "use of closed network connection".
Definition broken_pipe : error := NetError "write: broken pipe".
Definition reset_by_peer : error := NetError "write: connection reset by peer".
Definition conn_reset : error := NetError "read: connection reset by peer".
Definition sink_closed : error := NetError "io: read/write on closed pipe".

Definition hi_alignment : In.StreamingAlignmentSegment :=
  {| In.CharStartTimesMs := [0; 70]%Z;
     In.CharDurationsMs := [70; 90]%Z;
     In.Chars := ["h"; "i"] |}.

(** A frame whose audio is the base64 text of the two bytes "hi". *)
Definition frame_hi : In.StreamingInputResponse :=
  {| In.Audio := "aGk="; In.IsFinal := false;
     In.NormalizedAlignment := hi_alignment; In.Alignment := hi_alignment |}.

(** A last frame, with no audio. *)
Definition frame_final : In.StreamingInputResponse :=
  {| In.Audio := ""; In.IsFinal := true;
     In.NormalizedAlignment := hi_alignment; In.Alignment := hi_alignment |}.

(** A frame whose audio is not base64: its second character is outside
    the alphabet. *)
Definition frame_bad : In.StreamingInputResponse :=
  {| In.Audio := "a!k="; In.IsFinal := false;
     In.NormalizedAlignment := hi_alignment; In.Alignment := hi_alignment |}.

(** The reader started and waits in [ReadJSON]. *)
Definition reader_waiting : list Label := [Handshake None; Reader; Reader].

(** The watcher finds [TextReader] closed, sends the last frame and
    closes the connection. *)
Definition input_exhausted : list Label :=
  (reader_waiting ++ [Recv None; Writer; WriteOk; Writer])%list.

(** The reader's [ReadJSON] fails with [e]; the reader records it and
    returns; the watcher passes [wg.Wait()] and reads the result. *)
Definition read_fails (e : error) : list Label :=
  [ReadErr e; Reader; Reader; Reader; Reader; Writer; Writer].

(** Two tokens are received and written, then the input is exhausted. *)
Definition two_tokens : list Label :=
  (reader_waiting ++
   [Recv (Some "Hello"); WriteOk; Recv (Some "world"); WriteOk;
    Recv None; Writer; WriteOk; Writer] ++ read_fails closed_conn)%list.

(** The parent context is cancelled; reader and watcher see it at their
    next [select]; the watcher closes, waits and reads the result. *)
Definition cancelled : list Label :=
  [Cancel; Reader; CtxDone; Writer; Writer; Writer; Writer].

(** One frame is read and decoded, the write of its audio fails, then the
    session is cancelled. *)
Definition audio_write_fails : list Label :=
  (reader_waiting ++ [ReadOk frame_hi; PipeErr sink_closed] ++ cancelled)%list.

(** A first frame goes through, the audio of a second one cannot be
    written, then the session is cancelled. *)
Definition one_of_two_delivered : list Label :=
  (reader_waiting ++
   [ReadOk frame_hi; PipeOk; Deliver; Reader; Reader;
    ReadOk frame_final; PipeErr sink_closed] ++ cancelled)%list.

(** The session is cancelled and the watcher has seen it when a frame
    with malformed audio is read. *)
Definition bad_frame_after_cancel : list Label :=
  (reader_waiting ++
   [Cancel; CtxDone; ReadOk frame_bad; Reader; Writer; Writer; Writer; Writer])%list.

(** The write of a token fails, then the write of the last frame. *)
Definition two_write_failures : list Label :=
  (reader_waiting ++
   [Recv (Some "Hello"); WriteErr broken_pipe; Writer; Writer;
    WriteErr reset_by_peer])%list.

(** The parent context is cancelled while the reader waits in
    [ReadJSON]. *)
Definition cancel_while_reading : list Label :=
  (reader_waiting ++ [Cancel])%list.

(** The read then fails before the watcher has seen the cancellation. *)
Definition read_fails_before_watcher (e : error) : list Label :=
  [ReadErr e; Reader; Reader; Reader; Reader;
   CtxDone; Writer; Writer; Writer; Writer].

(** A frame was read and decoded; the reader is about to write its
    audio. *)
Definition frame_decoded : list Label :=
  (reader_waiting ++ [ReadOk frame_hi])%list.

End Scenarios.

(** ** Further properties stated about the chunker *)

Module ChunkerShape.

Import Chunker.

(** The string holds a space byte. *)
Fixpoint has_space (s : string) : bool :=
  match s with
  | EmptyString => false
  | String c rest => Nat.eqb (nat_of_ascii c) 32 || has_space rest
  end.

(** A fragment made of a text without space and the one space of the
    flush. *)
Definition one_trailing_space (f : string) : Prop :=
  exists body : string, f = body ++ " " /\ has_space body = false.

End ChunkerShape.

(** ** Further properties stated about a session *)

Module SessionShape.

Import Session.

(** The input watcher writes no more on the connection. *)
Definition done_writing (w : writer_pc) : bool :=
  match w with
  | WClose | WWait | WResult | WReturned _ => true
  | _ => false
  end.

(** The input watcher has left [InputWatcher]. *)
Definition left_loop (w : writer_pc) : bool :=
  match w with
  | WFinalCheck | WClose | WWait | WResult | WReturned _ => true
  | _ => false
  end.

(** More of what holds in every state of a session: the connection is
    closed before the reader is waited for; the frame ending the input
    comes last, if at all; the reader is past its send on [errCh] only
    with a fault recorded; and it returned only for the reasons its
    loop has. *)
Record Inv2 (s : State) : Prop := {
  inv_closed :
    match writer s with
    | WWait | WResult => conn_closed s = true
    | WReturned _ => reader s = RDone -> conn_closed s = true
    | _ => True
    end;
  inv_frames :
    conn_written s = map TextFrame (text_frames (conn_written s)) \/
    (done_writing (writer s) = true /\
     conn_written s =
       (map TextFrame (text_frames (conn_written s)) ++ [EndOfInput])%list);
  inv_sender :
    reader s = RSetError \/ reader s = RCancel -> faults s <> [];
  inv_exit :
    reader s = RDone ->
    ctx_done s = true \/ faults s <> [] \/ driverActive s = false
}.

(** The call has returned [r]; [cw], [rc], [ap] and [tr] are what had
    gone through the connection, the channels and the sink. *)
Definition Returned (r : option error) (cw : list frame)
    (rc : list Out.StreamingOutputResponse) (ap : list (list ascii))
    (tr : list string) (s : State) : Prop :=
  writer s = WReturned r /\ (reader s = RDone \/ reader s = RNotStarted) /\
  conn_written s = cw /\ ResponseChannel s = rc /\
  AudioResponsePipe s = ap /\ TextReader s = tr.

(** The input watcher left its loop on a cancellation; [cw] and [tr]
    are what it had written and received. *)
Definition ShutDown (cw : list frame) (tr : list string) (s : State) : Prop :=
  driverActive s = false /\ left_loop (writer s) = true /\
  conn_written s = cw /\ TextReader s = tr.

(** The input watcher recorded the failure [e] of a write in its loop:
    the reader can record nothing, and has returned only if the parent
    context was cancelled. *)
Definition WriteFailed (e : error) (s : State) : Prop :=
  Inv s /\ faults s = [e] /\ driverActive s = true /\
  in_loop (writer s) = false /\
  reader s <> RSetError /\ reader s <> RCancel /\ reader s <> RNotStarted /\
  (reader s = RDone -> ctx_done s = true).

(** The handshake failed: the reader goroutine was not started. *)
Definition NeverStarted (s : State) : Prop :=
  reader s = RNotStarted /\ writer s <> WHandshake.

(** The flags that were switched in [s0] are switched in [s]. *)
Definition Switched (s0 s : State) : Prop :=
  (driverActive s0 = false -> driverActive s = false) /\
  (driverError s0 = true -> driverError s = true) /\
  (inputCtx_done s0 = true -> inputCtx_done s = true) /\
  (ctx_done s0 = true -> ctx_done s = true) /\
  (conn_closed s0 = true -> conn_closed s = true).

End SessionShape.

(** ** More sessions used as examples *)

Module MoreScenarios.

Import Session Scenarios.

(** The write of a first token has just failed. *)
Definition token_write_failed : list Label :=
  (reader_waiting ++ [Recv (Some "Hello"); WriteErr broken_pipe])%list.

(** A frame is read and its audio written; its event waits to be
    taken. *)
Definition event_pending : list Label :=
  (reader_waiting ++ [ReadOk frame_hi; PipeOk])%list.

Definition dial_refused : error := NetError "dial tcp: connection refused".

(** A frame is read and decoded, the parent context is cancelled, then
    the write of the frame's audio fails. *)
Definition audio_write_fails_cancelled : list Label :=
  (frame_decoded ++ [Cancel; PipeErr sink_closed])%list.

(** The reader records a read error and returns, the watcher takes the
    cancellation of the input context, the parent context is cancelled
    and the connection closed: every flag is switched. *)
Definition all_switched : list Label :=
  (reader_waiting ++
   [ReadErr conn_reset; Reader; Reader; Reader; Reader;
    InputDone; Cancel; Writer; Writer])%list.

End MoreScenarios.

(** ** The frames of a schedule

    What the connection and the sink answer is in the labels of a
    schedule: the frames [ReadJSON] returns, and whether each write to
    [AudioResponsePipe] succeeds. *)

Module SessionTrace.

Import Session.

(** [sub] is made of elements of [l], in the order of [l]. *)
Inductive Subseq {A : Type} : list A -> list A -> Prop :=
| Subseq_nil : Subseq [] []
| Subseq_skip (x : A) (sub l : list A) : Subseq sub l -> Subseq sub (x :: l)
| Subseq_take (x : A) (sub l : list A) :
    Subseq sub l -> Subseq (x :: sub) (x :: l).

(** The frame the reader holds between the decoding of its audio and the
    write to the sink. *)
Definition pending_frame (r : reader_pc) : option In.StreamingInputResponse :=
  match r with
  | RPipe input _ => Some input
  | _ => None
  end.

Definition held (pending : option In.StreamingInputResponse)
    : list In.StreamingInputResponse :=
  match pending with
  | Some input => [input]
  | None => []
  end.

(** The frames [ReadJSON] returns in a schedule, in order. *)
Fixpoint frames_read (sched : list Label) : list In.StreamingInputResponse :=
  match sched with
  | [] => []
  | ReadOk input :: rest => input :: frames_read rest
  | _ :: rest => frames_read rest
  end.

Section Trace.

Variable decode : string -> error + list ascii.

Definition decodes (input : In.StreamingInputResponse) : bool :=
  match decode (In.Audio input) with
  | inr _ => true
  | inl _ => false
  end.

(** The frames read whose audio decodes. *)
Definition frames_decoded (sched : list Label)
    : list In.StreamingInputResponse :=
  filter decodes (frames_read sched).

(** The frames read in a schedule whose audio decodes and is written to
    the sink: a frame returned by [ReadJSON] is held if its audio
    decodes, and counts when the write to the sink that follows
    succeeds. *)
Fixpoint frames_written (pending : option In.StreamingInputResponse)
    (sched : list Label) : list In.StreamingInputResponse :=
  match sched with
  | [] => []
  | ReadOk input :: rest =>
      frames_written (if decodes input then Some input else None) rest
  | PipeOk :: rest => (held pending ++ frames_written None rest)%list
  | PipeErr _ :: rest => frames_written None rest
  | _ :: rest => frames_written pending rest
  end.

End Trace.

(** A frame whose audio did not decode, with the error [e], was read:
    the reader is handling the failure, or has. *)
Definition Malformed (e : error) (s : State) : Prop :=
  Inv s /\
  match reader s with
  | RFault e' =>
      e' = e /\ driverError s = false /\
      (driverActive s = false -> faults s = [])
  | RErrSend e' => e' = e /\ driverError s = false
  | RSetError => faults s = [e]
  | RCancel => faults s = [e] /\ driverError s = true
  | RDone =>
      (faults s = [e] /\ driverError s = true /\ inputCtx_done s = true) \/
      (faults s = [] /\ driverActive s = false)
  | _ => False
  end.

(** [driverError] is set by the reader only, on its way out. *)
Definition Errored (s : State) : Prop :=
  Inv s /\
  (driverError s = true -> reader s = RCancel \/ reader s = RDone).

End SessionTrace.

(** ** client.go: query functions, clients and unary requests *)

Module Http.

Export Base64.

(** [url.Values], a map from keys to the values added under them; a key
    that is not in the map has no value. *)
Definition Values : Type := string -> list string.

(** The values of a URL without query. *)
Definition no_values : Values := fun _ => [].

(** [func (v Values) Add(key, value string)]:
    [v[key] = append(v[key], value)]. *)
Definition Add (key value : string) (v : Values) : Values :=
  fun k => if (k =? key)%string then (v k ++ [value])%list else v k.

(** [QueryFunc], a function on a pointer to [url.Values]: what the
    function makes of the values it is given. *)
Definition QueryFunc : Type := Values -> Values.

(** [fmt.Sprint] of an [int]: its decimal writing. *)
Definition Sprint (n : Z) : string := NilZero.string_of_int (Z.to_int n).

Definition LatencyOptimizations (value : Z) : QueryFunc :=
  Add "optimize_streaming_latency" (Sprint value).

Definition OutputFormat (value : string) : QueryFunc :=
  Add "output_format" value.

Definition WithSettings : QueryFunc := Add "with_settings" "true".

Definition PageSize (n : Z) : QueryFunc := Add "page_size" (Sprint n).

Definition StartAfter (id : string) : QueryFunc :=
  Add "start_after_history_item_id" id.

(** [for _, qf := range queries { qf(&q) }]. *)
Definition apply_queries (queries : list QueryFunc) (q : Values) : Values :=
  fold_left (fun q qf => qf q) queries q.

(** A call of one of the five functions that make a [QueryFunc]. *)
Inductive query_call : Type :=
| CallLatencyOptimizations (value : Z)
| CallOutputFormat (value : string)
| CallWithSettings
| CallPageSize (n : Z)
| CallStartAfter (id : string).

Definition query_func (call : query_call) : QueryFunc :=
  match call with
  | CallLatencyOptimizations value => LatencyOptimizations value
  | CallOutputFormat value => OutputFormat value
  | CallWithSettings => WithSettings
  | CallPageSize n => PageSize n
  | CallStartAfter id => StartAfter id
  end.

(** The key a call is about and the value it gives. *)
Definition query_key (call : query_call) : string :=
  match call with
  | CallLatencyOptimizations _ => "optimize_streaming_latency"
  | CallOutputFormat _ => "output_format"
  | CallWithSettings => "with_settings"
  | CallPageSize _ => "page_size"
  | CallStartAfter _ => "start_after_history_item_id"
  end.

Definition query_value (call : query_call) : string :=
  match call with
  | CallLatencyOptimizations value => Sprint value
  | CallOutputFormat value => value
  | CallWithSettings => "true"
  | CallPageSize n => Sprint n
  | CallStartAfter id => id
  end.

(** The values the calls give for the key [k], in order. *)
Definition values_for (k : string) (calls : list query_call) : list string :=
  map query_value (filter (fun call => (k =? query_key call)%string) calls).

Definition elevenlabsBaseURL : string := "https://api.elevenlabs.io/v1".
Definition elevenlabsBaseWSURL : string := "wss://api.elevenlabs.io/v1".
(** [30 * time.Second], in nanoseconds. *)
Definition defaultTimeout : Z := 30 * 1000000000.
Definition contentTypeJSON : string := "application/json".

(** A [context.Context]: the background context, or one the caller
    gave. *)
Inductive Context : Type :=
| Background
| Given (id : nat).

Record Client : Type := {
  baseURL : string;
  baseWSUrl : string;
  apiKey : string;
  timeout : Z;
  ctx : Context
}.

Definition NewClient (ctx : Context) (apiKey : string) (reqTimeout : Z) : Client :=
  {| baseURL := elevenlabsBaseURL; baseWSUrl := elevenlabsBaseWSURL;
     apiKey := apiKey; timeout := reqTimeout; ctx := ctx |}.

(** The package variable [defaultClient]: [None] until [once.Do] has
    run. *)
Definition Global : Type := option Client.

(** [getDefaultClient]: the global after the call and the client it
    points to. *)
Definition getDefaultClient (g : Global) : Global * Client :=
  match g with
  | Some c => (g, c)
  | None =>
      let c := NewClient Background "" defaultTimeout in (Some c, c)
  end.

Definition SetAPIKey (key : string) (g : Global) : Global :=
  let c := snd (getDefaultClient g) in
  Some {| baseURL := baseURL c; baseWSUrl := baseWSUrl c; apiKey := key;
          timeout := timeout c; ctx := ctx c |}.

Definition SetTimeout (t : Z) (g : Global) : Global :=
  let c := snd (getDefaultClient g) in
  Some {| baseURL := baseURL c; baseWSUrl := baseWSUrl c; apiKey := apiKey c;
          timeout := t; ctx := ctx c |}.

(** A call that sets the default client. *)
Inductive setter : Type :=
| CallSetAPIKey (key : string)
| CallSetTimeout (t : Z).

Definition call (g : Global) (op : setter) : Global :=
  match op with
  | CallSetAPIKey key => SetAPIKey key g
  | CallSetTimeout t => SetTimeout t g
  end.

(** The key of the last [SetAPIKey] among the calls, [d] if there is
    none. *)
Fixpoint last_key (d : string) (ops : list setter) : string :=
  match ops with
  | [] => d
  | CallSetAPIKey key :: rest => last_key key rest
  | CallSetTimeout _ :: rest => last_key d rest
  end.

Fixpoint last_timeout (d : Z) (ops : list setter) : Z :=
  match ops with
  | [] => d
  | CallSetAPIKey _ :: rest => last_timeout d rest
  | CallSetTimeout t :: rest => last_timeout t rest
  end.

(** *** [doRequest] *)

(** The request given to [client.Do]; the query is kept as values, not
    encoded. *)
Record Request : Type := {
  Method : string;
  URL : string;
  Header : list (string * string);
  Query : Values;
  Body : option (list ascii)
}.

(** The response: its status code and what [io.ReadAll(resp.Body)]
    returns. *)
Record Response : Type := {
  StatusCode : Z;
  RespBody : list ascii * option error
}.

(** The world of a request, and what is declared outside the files at
    hand: the types [APIError], [ValidationError], [TextToSpeechRequest]
    and [GetHistoryResponse] with their coding by [encoding/json];
    whether [http.NewRequestWithContext] refuses a method and URL; the
    query values of a URL; what [client.Do] answers. *)
Record World : Type := {
  APIError : Type;
  ValidationError : Type;
  UnmarshalAPIError : list ascii -> error + APIError;
  UnmarshalValidationError : list ascii -> error + ValidationError;
  NewRequestError : string -> string -> option error;
  URLQuery : string -> Values;
  Do : Request -> error + Response;
  TextToSpeechRequest : Type;
  MarshalTextToSpeechRequest : TextToSpeechRequest -> error + list ascii;
  GetHistoryResponse : Type;
  emptyHistory : GetHistoryResponse;            (* [GetHistoryResponse{}] *)
  HasMore : GetHistoryResponse -> bool;
  LastHistoryItemId : GetHistoryResponse -> string;
  UnmarshalHistory : list ascii -> error + GetHistoryResponse
}.

Section Requests.

Variable W : World.

(** The errors [doRequest] returns. *)
Inductive request_error : Type :=
| Passed (err : error)                  (* an error of a library call, as it is *)
| IsAPIError (e : APIError W)           (* [&apiErr] *)
| IsValidationError (e : ValidationError W) (* [&valErr] *)
| UnmarshalAPIErrorFailed (err : error)
    (* [fmt.Errorf("failed to unmarshal APIError: %w", err)] *)
| UnmarshalValidationErrorFailed (err : error)
    (* [fmt.Errorf("failed to unmarshal ValidationError: %w", err)] *)
| UnexpectedStatus (code : Z)
    (* [fmt.Errorf("unexpected HTTP status %d %s", ...)] *)
| ErrShortWrite.                        (* [io.ErrShortWrite] *)

(** The headers set on a request. *)
Definition request_header (c : Client) (contentType : string) :
    list (string * string) :=
  ([("Accept", "*/*")] ++
   (if (contentType =? "")%string then [] else [("Content-Type", contentType)]) ++
   (if (apiKey c =? "")%string then [] else [("xi-api-key", apiKey c)]))%list.

(** The error for a status that is not 200. *)
Definition status_error (code : Z) (respBytes : list ascii) : request_error :=
  if (code =? 400)%Z || (code =? 401)%Z then
    match UnmarshalAPIError W respBytes with
    | inl err => UnmarshalAPIErrorFailed err
    | inr e => IsAPIError e
    end
  else if (code =? 422)%Z then
    match UnmarshalValidationError W respBytes with
    | inl err => UnmarshalValidationErrorFailed err
    | inr e => IsValidationError e
    end
  else UnexpectedStatus code.

(** [io.Copy(RespBodyWriter, bytes.NewReader(respBytes))]: nothing is
    written for an empty body, else the body goes in one [Write], which
    answers the number of bytes taken and an error or none. *)
Definition copy_body (Write : list ascii -> nat * option error)
    (respBytes : list ascii) : option request_error * option (list ascii) :=
  match respBytes with
  | [] => (None, None)
  | _ =>
      let '(m, err) := Write respBytes in
      (match err with
       | Some e => Some (Passed e)
       | None => if Nat.eqb m (length respBytes) then None else Some ErrShortWrite
       end,
       Some respBytes)
  end.

(** What a call of [doRequest] gives: the error returned ([None] is
    nil), the request given to [client.Do], if any, and what was given
    to [RespBodyWriter.Write], if anything.  The log lines are left
    out. *)
Record Outcome : Type := {
  ret : option request_error;
  sent : option Request;
  wrote : option (list ascii)
}.

(** [bodyBuf] is [None] for a nil reader, else what [io.ReadAll] gets
    from it; an error of that read is only logged. *)
Definition doRequest (c : Client) (Write : list ascii -> nat * option error)
    (method urlStr : string) (bodyBuf : option (list ascii * option error))
    (contentType : string) (queries : list QueryFunc) : Outcome :=
  match NewRequestError W method urlStr with
  | Some err => {| ret := Some (Passed err); sent := None; wrote := None |}
  | None =>
      let req :=
        {| Method := method; URL := urlStr;
           Header := request_header c contentType;
           Query := apply_queries queries (URLQuery W urlStr);
           Body := option_map fst bodyBuf |} in
      match Do W req with
      | inl err => {| ret := Some (Passed err); sent := Some req; wrote := None |}
      | inr resp =>
          match RespBody resp with
          | (_, Some err) =>
              {| ret := Some (Passed err); sent := Some req; wrote := None |}
          | (respBytes, None) =>
              if (StatusCode resp =? 200)%Z then
                let '(r, w) := copy_body Write respBytes in
                {| ret := r; sent := Some req; wrote := w |}
              else
                {| ret := Some (status_error (StatusCode resp) respBytes);
                   sent := Some req; wrote := None |}
          end
      end
  end.

(** The request [doRequest] gives to [client.Do], with the body read. *)
Definition built (c : Client) (method urlStr : string)
    (body : option (list ascii)) (contentType : string)
    (queries : list QueryFunc) : Request :=
  {| Method := method; URL := urlStr;
     Header := request_header c contentType;
     Query := apply_queries queries (URLQuery W urlStr);
     Body := body |}.

(** [bytes.Buffer.Write]: takes everything. *)
Definition buffer_write (p : list ascii) : nat * option error :=
  (length p, None).

(** [b.Bytes()] of a [bytes.Buffer] that was the writer of a call. *)
Definition buffer_bytes (o : Outcome) : list ascii :=
  match wrote o with
  | Some p => p
  | None => []
  end.

(** *** [TextToSpeech] *)

(** The bytes and error returned, and the request sent, if any. *)
Definition TextToSpeech (c : Client) (voiceID : string)
    (ttsReq : TextToSpeechRequest W) (queries : list QueryFunc) :
    list ascii * option request_error * option Request :=
  match MarshalTextToSpeechRequest W ttsReq with
  | inl err => ([], Some (Passed err), None)
  | inr reqBody =>
      let o := doRequest c buffer_write "POST"
                 (baseURL c ++ "/text-to-speech/" ++ voiceID)
                 (Some (reqBody, None)) contentTypeJSON queries in
      match ret o with
      | Some err => ([], Some err, sent o)
      | None => (buffer_bytes o, None, sent o)
      end
  end.

(** *** [GetHistory] *)

(** What the function returned as [NextHistoryPageFunc] holds: the
    queries of the call and the last item of its page. *)
Record NextPage : Type := {
  page_queries : list QueryFunc;
  page_last : string
}.

Record HistoryResult : Type := {
  history : GetHistoryResponse W;
  next : option NextPage;              (* [None] is a nil function *)
  history_err : option request_error;
  history_sent : option Request
}.

Definition GetHistory (c : Client) (queries : list QueryFunc) : HistoryResult :=
  let o := doRequest c buffer_write "GET" (baseURL c ++ "/history")
             (Some ([], None)) contentTypeJSON queries in
  match ret o with
  | Some err =>
      {| history := emptyHistory W; next := None; history_err := Some err;
         history_sent := sent o |}
  | None =>
      match UnmarshalHistory W (buffer_bytes o) with
      | inl err =>
          {| history := emptyHistory W; next := None;
             history_err := Some (Passed err); history_sent := sent o |}
      | inr historyResp =>
          {| history := historyResp;
             next := if HasMore W historyResp
                     then Some {| page_queries := queries;
                                  page_last := LastHistoryItemId W historyResp |}
                     else None;
             history_err := None; history_sent := sent o |}
      end
  end.

(** A call of the function returned:
    [qf = append(queries, append(qf, StartAfter(...))...)], then
    [c.GetHistory(qf...)]; slices are taken by their elements. *)
Definition next_page (c : Client) (np : NextPage) (qf : list QueryFunc) :
    HistoryResult :=
  GetHistory c (page_queries np ++ (qf ++ [StartAfter (page_last np)]))%list.

End Requests.

Arguments Passed {W} err.
Arguments IsAPIError {W} e.
Arguments IsValidationError {W} e.
Arguments UnmarshalAPIErrorFailed {W} err.
Arguments UnmarshalValidationErrorFailed {W} err.
Arguments UnexpectedStatus {W} code.
Arguments ErrShortWrite {W}.
Arguments ret {W} o.
Arguments sent {W} o.
Arguments wrote {W} o.
Arguments buffer_bytes {W} o.
Arguments history {W} h.
Arguments next {W} h.
Arguments history_err {W} h.
Arguments history_sent {W} h.

(** *** A world used as example

    A server that knows three pages of history, "a", "b" and "c", and
    answers by the number of items the request starts after; its bodies
    are one byte for "has more" and the last item. *)

Definition example_history (req : Request) : error + Response :=
  match Query req "start_after_history_item_id" with
  | [] => inr {| StatusCode := 200; RespBody := (list_ascii_of_string "1a", None) |}
  | [_] => inr {| StatusCode := 200; RespBody := (list_ascii_of_string "1b", None) |}
  | _ => inr {| StatusCode := 200; RespBody := (list_ascii_of_string "0c", None) |}
  end.

Definition example_unmarshal_history (b : list ascii) : error + (bool * string) :=
  match b with
  | [] => inl (NetError "unexpected end of JSON input")
  | c :: rest => inr (Ascii.eqb c "1", string_of_list_ascii rest)
  end.

Definition example_world : World :=
  {| APIError := string;
     ValidationError := string;
     UnmarshalAPIError := fun b => inr (string_of_list_ascii b);
     UnmarshalValidationError := fun b => inr (string_of_list_ascii b);
     NewRequestError := fun _ _ => None;
     URLQuery := fun _ => no_values;
     Do := example_history;
     TextToSpeechRequest := string;
     MarshalTextToSpeechRequest := fun t => inr (list_ascii_of_string t);
     GetHistoryResponse := bool * string;
     emptyHistory := (false, "");
     HasMore := fst;
     LastHistoryItemId := snd;
     UnmarshalHistory := example_unmarshal_history |}.

(** The same world with a server that refuses every request. *)
Definition denied_world : World :=
  {| APIError := string;
     ValidationError := string;
     UnmarshalAPIError := fun b => inr (string_of_list_ascii b);
     UnmarshalValidationError := fun b => inr (string_of_list_ascii b);
     NewRequestError := fun _ _ => None;
     URLQuery := fun _ => no_values;
     Do := fun _ =>
       inr {| StatusCode := 401;
              RespBody := (list_ascii_of_string "bad key", None) |};
     TextToSpeechRequest := string;
     MarshalTextToSpeechRequest := fun t => inr (list_ascii_of_string t);
     GetHistoryResponse := bool * string;
     emptyHistory := (false, "");
     HasMore := fst;
     LastHistoryItemId := snd;
     UnmarshalHistory := example_unmarshal_history |}.

Definition example_client : Client := NewClient Background "secret" defaultTimeout.

End Http.

(** * Facts *)

Module GoStringFacts.

Lemma append_nil_r (s : string) : s ++ "" = s.
Proof. induction s as [|c s IH]; simpl; [reflexivity | now rewrite IH]. Qed.

Lemma append_assoc (a b c : string) : (a ++ b) ++ c = a ++ (b ++ c).
Proof. induction a as [|x a IH]; simpl; [reflexivity | now rewrite IH]. Qed.

Lemma length_append (a b : string) :
  String.length (a ++ b) = String.length a + String.length b.
Proof. induction a as [|x a IH]; simpl; [reflexivity | now rewrite IH]. Qed.

Lemma join_app (l1 l2 : list string) :
  join (l1 ++ l2)%list = join l1 ++ join l2.
Proof.
  induction l1 as [|x l1 IH]; simpl; [reflexivity|].
  now rewrite IH, append_assoc.
Qed.

Lemma string_of_byte_ascii (b : ascii) :
  nat_of_ascii b < 128 -> string_of_byte b = String b "".
Proof.
  intros H. unfold string_of_byte.
  destruct (Nat.ltb_spec (nat_of_ascii b) 128); [reflexivity | lia].
Qed.

Lemma substring_all (s : string) : substring 0 (String.length s) s = s.
Proof. induction s as [|c s IH]; simpl; [reflexivity | now rewrite IH]. Qed.

Lemma substring_skip (a b : string) (n : nat) :
  substring (String.length a) n (a ++ b) = substring 0 n b.
Proof. induction a as [|c a IH]; simpl; [reflexivity | exact IH]. Qed.

Lemma HasSuffix_append (a sub : string) : HasSuffix (a ++ sub) sub = true.
Proof.
  unfold HasSuffix. rewrite length_append.
  replace (String.length a + String.length sub - String.length sub)
    with (String.length a) by lia.
  rewrite substring_skip, substring_all, String.eqb_refl.
  destruct (Nat.leb_spec (String.length sub) (String.length a + String.length sub));
    [reflexivity | lia].
Qed.

End GoStringFacts.

Module ChunkerFacts.

Import Chunker GoStringFacts.

Lemma startsWithAny_empty : startsWithAny "" splitters = false.
Proof. reflexivity. Qed.

Lemma spaced_up_to (s : string) : up_to_flush_space (spaced s) s.
Proof. unfold spaced, up_to_flush_space. destruct (endsWith s " "); auto. Qed.

Lemma spaced_ends_with_space (s : string) : endsWith (spaced s) " " = true.
Proof.
  unfold spaced. destruct (endsWith s " ") eqn:E; [exact E|].
  apply HasSuffix_append.
Qed.

(** The second branch of the loop on a token whose first byte is ASCII:
    the fragment is the buffer and that byte, spaced, and the new buffer
    is the rest of the token. *)
Lemma chunk_token_flush_ascii (buffer rest : string) (b : ascii) :
  endsWithAny buffer splitters = false ->
  startsWithAny (String b rest) splitters = true ->
  nat_of_ascii b < 128 ->
  chunk_token buffer (String b rest) = (Some (spaced (buffer ++ String b "")), rest).
Proof.
  intros He Hs Hb. unfold chunk_token.
  rewrite He, Hs, (string_of_byte_ascii b Hb). reflexivity.
Qed.

Example chunk_token_hello_world :
  chunk_token "Hello" ",world" = (Some "Hello, ", "world").
Proof. reflexivity. Qed.

(** One iteration keeps every byte when the token starts with an ASCII
    byte: body of the fragment sent, then the new buffer, is the old
    buffer, then the token. *)
Lemma chunk_token_keeps_bytes (buffer t : string) :
  ascii_head t ->
  match chunk_token buffer t with
  | (Some f, buffer') =>
      exists body, up_to_flush_space f body /\ body ++ buffer' = buffer ++ t
  | (None, buffer') => buffer' = buffer ++ t
  end.
Proof.
  intros Ht. unfold chunk_token.
  destruct (endsWithAny buffer splitters).
  - exists buffer. split; [apply spaced_up_to | reflexivity].
  - destruct (startsWithAny t splitters) eqn:Hs; [|reflexivity].
    destruct t as [|b rest]; [discriminate Hs|].
    simpl in Ht. rewrite (string_of_byte_ascii b Ht).
    exists (buffer ++ String b ""). split; [apply spaced_up_to|].
    now rewrite append_assoc.
Qed.

Lemma range_loop_keeps_bytes (text : list string) :
  Forall ascii_head text ->
  forall buffer : string,
  exists bodies : list string,
    Forall2 up_to_flush_space (fst (range_loop buffer text)) bodies /\
    join bodies ++ snd (range_loop buffer text) = buffer ++ join text.
Proof.
  induction 1 as [|t text Ht _ IH]; intros buffer; simpl.
  - exists []. split; [constructor | now rewrite append_nil_r].
  - pose proof (chunk_token_keeps_bytes buffer t Ht) as Hstep.
    destruct (chunk_token buffer t) as [out buffer'].
    destruct (IH buffer') as (bodies & Hb & Hj).
    destruct (range_loop buffer' text) as [outs final]. simpl in *.
    destruct out as [f|].
    + destruct Hstep as (body & Hf & Hbody).
      exists (body :: bodies). split; [now constructor|].
      simpl. now rewrite append_assoc, Hj, <- !append_assoc, Hbody.
    + exists bodies. split; [exact Hb|].
      now rewrite Hj, Hstep, append_assoc.
Qed.

(** Away from tokens that start with a byte from 0x80 up, the chunker
    does reconstruct its input. *)
Lemma fragments_reconstruct_ascii (text : list string) :
  Forall ascii_head text -> reconstructs (fragments text) text.
Proof.
  intros H. destruct (range_loop_keeps_bytes text H "") as (bodies & Hb & Hj).
  unfold fragments. destruct (range_loop "" text) as [outs final]. simpl in *.
  exists (bodies ++ final_sends final)%list. split.
  - apply Forall2_app; [exact Hb|].
    unfold final_sends. destruct (final =? "")%string; repeat constructor.
  - rewrite join_app, <- Hj. f_equal.
    unfold final_sends. destruct (String.eqb_spec final "") as [->|_];
      simpl; [reflexivity | apply append_nil_r].
Qed.

(** C4: on the one-token input made of the non-ASCII splitter, the two
    fragments sent are the bytes C3 83 20 and A2 E2 82 AC E2 80 9D: the
    byte 83 was added and the fragments do not reconstruct the token. *)
Theorem fragments_dash_not_reconstructed :
  fragments [dash_splitter] =
    [bytes [195; 131; 32]; bytes [162; 226; 130; 172; 226; 128; 157]] /\
  ~ reconstructs (fragments [dash_splitter]) [dash_splitter].
Proof.
  split; [reflexivity|].
  intros (bodies & Hb & Hj).
  change (fragments [dash_splitter])
    with [bytes [195; 131; 32]; bytes [162; 226; 130; 172; 226; 128; 157]] in Hb.
  inversion Hb as [|f1 b1 fs bs H1 Hrest]; subst.
  assert (Hhead : exists r, b1 = String (ascii_of_nat 195) (String (ascii_of_nat 131) r)).
  { destruct H1 as [<-|H1]; [eexists; reflexivity|].
    destruct b1 as [|x [|y r]]; cbn in H1; try discriminate H1.
    inversion H1; subst. eexists; reflexivity. }
  destruct Hhead as (r & ->). cbn in Hj. discriminate Hj.
Qed.

(** C5: with an empty buffer (which ends with no splitter) and the token
    made of the non-ASCII splitter (which starts with one), the fragment
    sent is the bytes C3 83 20 and the new buffer the token without its
    first byte; the fragment is neither the buffer and the first byte of
    the token, spaced, nor the buffer and its first two bytes, spaced. *)
Theorem chunk_token_dash_first_byte :
  endsWithAny "" splitters = false /\
  startsWithAny dash_splitter splitters = true /\
  chunk_token "" dash_splitter =
    (Some (bytes [195; 131; 32]), bytes [162; 226; 130; 172; 226; 128; 157]) /\
  bytes [195; 131; 32] <> spaced ("" ++ bytes [195]) /\
  bytes [195; 131; 32] <> spaced ("" ++ bytes [195; 162]).
Proof.
  repeat split; try reflexivity; cbv; discriminate.
Qed.

(** C6, as stated: on "Hello", "world", "." the only fragment is
    "Helloworld. ", so no fragment stops after the first word. *)
Theorem hello_world_no_split_after_word :
  fragments ["Hello"; "world"; "."] = ["Helloworld. "] /\
  ~ first_fragment_is_word "Hello" (fragments ["Hello"; "world"; "."]).
Proof.
  split; [reflexivity|].
  intros (f & rest & Hf & Hw).
  change (fragments ["Hello"; "world"; "."]) with ["Helloworld. "] in Hf.
  injection Hf as <- _.
  destruct Hw as [Hw|Hw]; cbn in Hw; discriminate Hw.
Qed.

(** C6, amended: "Hello", "world", "." gives the single fragment
    "Helloworld. " and then the close; for every input the operations on
    the output channel are the fragments sent while the input was open,
    then the buffer if and only if it is not empty, then the close. *)
Theorem textChunker_final_fragment :
  textChunker ["Hello"; "world"; "."] = [Send "Helloworld. "; Close] /\
  forall text : list string,
    exists after_close : list chan_op,
      textChunker text =
        (map Send (sent_while_open text) ++ after_close ++ [Close])%list /\
      (buffer_at_close text <> "" -> after_close = [Send (buffer_at_close text)]) /\
      (buffer_at_close text = "" -> after_close = []).
Proof.
  split; [reflexivity|].
  intros text. unfold textChunker, fragments, sent_while_open, buffer_at_close.
  destruct (range_loop "" text) as [outs final]. simpl.
  exists (map Send (final_sends final)). split.
  - now rewrite map_app, <- app_assoc.
  - unfold final_sends.
    destruct (String.eqb_spec final "") as [->|Hne]; simpl; split; intros H;
      try reflexivity; contradiction.
Qed.

End ChunkerFacts.

Module SessionFacts.

Import Session SessionTrace.
Local Open Scope list_scope.

Lemma Subseq_refl {A : Type} (l : list A) : Subseq l l.
Proof. induction l; constructor; assumption. Qed.

Lemma text_frames_app (a b : list frame) :
  text_frames (a ++ b) = text_frames a ++ text_frames b.
Proof.
  induction a as [|[ch|] a IH]; simpl; [reflexivity | now rewrite IH | exact IH].
Qed.

Section Runs.

Variable decode : string -> error + list ascii.

Lemma run_app (s : State) (a b : list Label) :
  run decode s (a ++ b) =
    match run decode s a with
    | Some s' => run decode s' b
    | None => None
    end.
Proof.
  revert s. induction a as [|l a IH]; intros s; simpl; [reflexivity|].
  destruct (step decode l s); [apply IH | reflexivity].
Qed.

Lemma run_one (s : State) (l : Label) :
  run decode s [l] = step decode l s.
Proof. simpl. now destruct (step decode l s). Qed.

(** A property kept by every step is kept by every run. *)
Lemma run_preserves (P : State -> Prop) :
  (forall l s s', P s -> step decode l s = Some s' -> P s') ->
  forall sched s s', P s -> run decode s sched = Some s' -> P s'.
Proof.
  intros Hstep. induction sched as [|l sched IH]; intros s s' HP Hrun; simpl in Hrun.
  - now injection Hrun as <-.
  - destruct (step decode l s) as [s1|] eqn:E; [|discriminate].
    eapply IH; [|exact Hrun]. eapply Hstep; eassumption.
Qed.

Lemma reachable_preserves (P : State -> Prop) :
  P init ->
  (forall l s s', P s -> step decode l s = Some s' -> P s') ->
  forall s, reachable decode s -> P s.
Proof.
  intros H0 Hstep s (sched & Hrun).
  eapply run_preserves; eassumption.
Qed.

Lemma reachable_run (s s' : State) (sched : list Label) :
  reachable decode s -> run decode s sched = Some s' -> reachable decode s'.
Proof.
  intros (pre & Hpre) Hrun. exists (pre ++ sched).
  now rewrite run_app, Hpre.
Qed.

Lemma Inv_init : Inv init.
Proof. constructor; cbn; auto; intros; congruence. Qed.

Lemma Inv_step (l : Label) (s s' : State) :
  Inv s -> step decode l s = Some s' -> Inv s'.
Proof.
  intros [Ha Hs Ho Hj Hf] H. step_inversion H.
  all: destruct fl as [|e1 [|e2 fl]]; cbn in *; try lia.
  all: constructor; cbn; intros; subst;
    repeat match goal with
           | H : _ /\ _ |- _ => destruct H
           | H : ?a = ?a -> _ |- _ => specialize (H eq_refl)
           | H : [] <> [] |- _ => now contradiction H
           | H : (_ :: _) <> [] -> _ |- _ =>
               specialize (H ltac:(discriminate))
           end;
    try congruence; try lia; auto.
  all: try (intuition (try congruence; try discriminate)).
Qed.

Lemma reachable_Inv (s : State) : reachable decode s -> Inv s.
Proof. apply reachable_preserves; [exact Inv_init | exact Inv_step]. Qed.

Lemma InvIO_init : InvIO decode init.
Proof. constructor; cbn; auto. Qed.

Lemma InvIO_step (l : Label) (s s' : State) :
  Inv s -> InvIO decode s -> step decode l s = Some s' -> InvIO decode s'.
Proof.
  intros [_ _ _ Hj _] [Hp Hd Hau Hdec Ht Hy] H. step_inversion H.
  all: unfold written_texts in *; cbn in *.
  all: repeat match goal with
              | H : exists _, _ |- _ => destruct H
              | H : _ /\ _ |- _ => destruct H
              end; subst; try discriminate; try congruence.
  all: repeat match goal with
              | H : context [map _ (_ ++ _)] |- _ => rewrite map_app in H
              | H : context [length (_ ++ _)] |- _ => rewrite length_app in H
              end; cbn in *.
  all: constructor; unfold written_texts; cbn;
    rewrite ?text_frames_app, ?map_app, ?length_app; cbn;
    rewrite ?app_nil_r; auto; try lia.
  all: try solve [ eexists; split; [reflexivity | assumption]
                 | exists []; split; [now rewrite app_nil_r | cbn; lia]
                 | eexists [_]; split; [reflexivity | cbn; lia]
                 | eexists; split; reflexivity
                 | congruence
                 | apply Forall_app; split; [assumption | now repeat constructor] ].
Qed.

Lemma reachable_InvIO (s : State) : reachable decode s -> InvIO decode s.
Proof.
  intros H. cut (Inv s /\ InvIO decode s); [tauto|].
  revert s H. apply reachable_preserves.
  - split; [exact Inv_init | exact InvIO_init].
  - intros l s s' [HI HIO] H. split;
      [eapply Inv_step | eapply InvIO_step]; eassumption.
Qed.

(** Once the driver was shut down with nothing recorded, it stays so. *)
Lemma Quiet_step (l : Label) (s s' : State) :
  Quiet s -> step decode l s = Some s' -> Quiet s'.
Proof.
  unfold Quiet. intros (Ha & Hc & Hf & Hw & Hr) H. step_inversion H.
  all: cbn in *; subst; try discriminate; repeat split; solve [reflexivity | assumption].
Qed.

(** Once the reader has left its loop it sends and writes nothing more. *)
Lemma Stopped_step (sent : list Out.StreamingOutputResponse)
    (written : list (list ascii)) (l : Label) (s s' : State) :
  Stopped sent written s -> step decode l s = Some s' -> Stopped sent written s'.
Proof.
  unfold Stopped. intros (Hr & Hw & Hc & Ha) H. step_inversion H.
  all: cbn in *; subst; try discriminate; try (now contradiction Hw);
    repeat split; solve [reflexivity | assumption | discriminate].
Qed.

(** A send on the full [errCh] never completes. *)
Lemma Blocked_step (e1 e2 : error) (l : Label) (s s' : State) :
  Blocked e1 e2 s -> step decode l s = Some s' -> Blocked e1 e2 s'.
Proof.
  unfold Blocked. intros (Hw & Hc) H. step_inversion H.
  all: cbn in *; subst; try discriminate; split; congruence.
Qed.

(** A recorded fault stays the one recorded. *)
Lemma Recorded_step (e : error) (l : Label) (s s' : State) :
  Recorded e s -> step decode l s = Some s' -> Recorded e s'.
Proof.
  intros (HI & Hf) H. split; [eapply Inv_step; eassumption|].
  destruct HI as [_ Hs _ Hj _]. step_inversion H.
  all: cbn in *; subst; try discriminate; try (destruct Hj; discriminate);
    try reflexivity.
  all: destruct Hj; discriminate.
Qed.

(** With the watcher out of its loop and [driverActive] set, a read
    error is recorded and stays the fault recorded. *)
Lemma ReadFailed_step (e : error) (l : Label) (s s' : State) :
  ReadFailed e s -> step decode l s = Some s' -> ReadFailed e s'.
Proof.
  intros (HI & Ha & Hw & Hr) H. split; [eapply Inv_step; eassumption|].
  destruct HI as [_ Hs _ Hj _]. step_inversion H.
  all: cbn in *; subst; try discriminate; try contradiction;
    try (destruct Hj; discriminate).
  all: try (repeat split; solve [reflexivity | assumption]).
  all: destruct fl as [|e1 fl]; try discriminate; repeat split; reflexivity.
Qed.

(** The reader goroutine does not start again. *)
Lemma Joined_step (l : Label) (s s' : State) :
  Joined s -> step decode l s = Some s' -> Joined s'.
Proof.
  intros (HI & Hr) H. split; [eapply Inv_step; eassumption|].
  destruct HI as [_ _ _ Hj _]. step_inversion H.
  all: cbn in *; subst; try discriminate; try (destruct Hj; discriminate);
    reflexivity.
Qed.

(** One step changes the frames written as its label says. *)
Lemma frames_written_step (l : Label) (s s' : State) (rest : list Label) :
  Inv s -> step decode l s = Some s' ->
  piped s' ++ frames_written decode (pending_frame (reader s')) rest =
  piped s ++ frames_written decode (pending_frame (reader s)) (l :: rest).
Proof.
  intros [_ _ _ Hj _] H. step_inversion H.
  all: cbn in *; unfold decodes; cbn;
    repeat match goal with
           | E : decode _ = _ |- _ => rewrite E
           end;
    rewrite <- ?app_assoc; try reflexivity.
  all: destruct Hj; discriminate.
Qed.

(** The frames whose audio was written are those the labels of the
    schedule give. *)
Lemma frames_written_run (sched : list Label) (s s' : State) :
  Inv s -> run decode s sched = Some s' ->
  piped s' = piped s ++ frames_written decode (pending_frame (reader s)) sched.
Proof.
  revert s. induction sched as [|l sched IH]; intros s HI Hrun; simpl in Hrun.
  - injection Hrun as <-. cbn. now rewrite app_nil_r.
  - destruct (step decode l s) as [s1|] eqn:E; [|discriminate].
    rewrite (IH s1 (Inv_step l s s1 HI E) Hrun).
    now apply frames_written_step.
Qed.

Lemma frames_decoded_step (l : Label) (s s' : State) (rest : list Label) :
  step decode l s = Some s' ->
  decoded s' ++ frames_decoded decode rest =
  decoded s ++ frames_decoded decode (l :: rest).
Proof.
  intros H. step_inversion H.
  all: cbn in *; unfold frames_decoded, decodes; cbn;
    repeat match goal with
           | E : decode _ = _ |- _ => rewrite E
           end;
    rewrite <- ?app_assoc; reflexivity.
Qed.

(** The frames read and decoded are those the labels of the schedule
    give. *)
Lemma frames_decoded_run (sched : list Label) (s s' : State) :
  run decode s sched = Some s' ->
  decoded s' = decoded s ++ frames_decoded decode sched.
Proof.
  revert s. induction sched as [|l sched IH]; intros s Hrun; simpl in Hrun.
  - injection Hrun as <-. cbn. now rewrite app_nil_r.
  - destruct (step decode l s) as [s1|] eqn:E; [|discriminate].
    rewrite (IH s1 Hrun). now apply frames_decoded_step.
Qed.

(** The frames written are among the frames read that decode, in
    order. *)
Lemma frames_written_decoded (sched : list Label)
    (pending : option In.StreamingInputResponse) :
  Subseq (frames_written decode pending sched)
    (held pending ++ frames_decoded decode sched).
Proof.
  assert (Hdrop : forall p (sub l : list In.StreamingInputResponse),
            Subseq sub l -> Subseq sub (held p ++ l)).
  { intros [i|] sub l H; cbn; [now constructor | exact H]. }
  revert pending. induction sched as [|l sched IH]; intros pending.
  - cbn. rewrite app_nil_r. destruct pending; cbn; repeat constructor.
  - destruct l; cbn [frames_written];
      try (exact (IH pending)).
    + apply Hdrop. unfold frames_decoded. cbn [frames_read filter].
      specialize (IH (if decodes decode input then Some input else None)).
      destruct (decodes decode input); cbn in IH; exact IH.
    + destruct pending as [i|]; cbn; [constructor|]; apply (IH None).
    + apply Hdrop. apply (IH None).
Qed.

Lemma Errored_init : Errored init.
Proof. split; [exact Inv_init | discriminate]. Qed.

Lemma Errored_step (l : Label) (s s' : State) :
  Errored s -> step decode l s = Some s' -> Errored s'.
Proof.
  intros (HI & He) H. split; [eapply Inv_step; eassumption|].
  destruct HI as [_ _ _ Hj _]. step_inversion H.
  all: cbn in *; intros; subst; auto; try discriminate.
  all: try (destruct Hj as [Hj _]; destruct He as [He|He]; auto; congruence).
  all: try (destruct He as [He|He]; auto; discriminate).
Qed.

Lemma reachable_Errored (s : State) : reachable decode s -> Errored s.
Proof. apply reachable_preserves; [exact Errored_init | exact Errored_step]. Qed.

(** After a frame with malformed audio the reader records the decode
    error, or drops it once the driver is shut down; nothing else is
    recorded when the reader has returned. *)
Lemma Malformed_step (e : error) (l : Label) (s s' : State) :
  Malformed e s -> step decode l s = Some s' -> Malformed e s'.
Proof.
  intros (HI & Hm) H. split; [eapply Inv_step; eassumption|].
  destruct HI as [Ha Hs _ Hj Hf]. step_inversion H.
  all: cbn in *; try contradiction.
  all: repeat match goal with
              | H : _ /\ _ |- _ => destruct H
              end; subst; try discriminate.
  all: try (destruct fl as [|e1 fl]; cbn in *; try discriminate).
  all: try solve [ intuition (try congruence; try discriminate) ].
Qed.

End Runs.
End SessionFacts.

Module SessionClaims.

Import Session SessionTrace SessionFacts Scenarios MoreScenarios.
Local Open Scope list_scope.

Section Claims.

Variable decode : string -> error + list ascii.

(** C2, amended: the text frames written on the connection are the
    tokens received from [TextReader], in order and as they are (the
    chunker is not run), but for a last token whose write has not
    succeeded; whenever the watcher is back at its [select] every token
    received was written; and every text frame carries
    [try_trigger_generation = true]. *)
Theorem forwarded_frames_are_tokens (sched : list Label) (s : State) :
  run decode init sched = Some s ->
  Forall (fun ch => TryTriggerGeneration ch = true)
    (text_frames (conn_written s)) /\
  (exists pending : list string,
     TextReader s = written_texts s ++ pending /\ length pending <= 1) /\
  (writer s = WSelect -> TextReader s = written_texts s).
Proof.
  intros H.
  destruct (reachable_InvIO decode s (ex_intro _ sched H)) as [_ _ _ _ Ht Hy].
  split; [exact Hy|]. split.
  - destruct (writer s);
      try exact Ht;
      try (exists []; split; [now rewrite app_nil_r | simpl; lia]).
    exists [chunk]. split; [exact Ht | simpl; lia].
  - intros Hw. now rewrite Hw in Ht.
Qed.

(** C3, amended: when the call has returned, the values sent on
    [ResponseChannel] are, in order, those of the inbound frames that
    [ReadJSON] returned, whose audio decoded and whose write to the audio
    sink succeeded: as many, the Nth with the fields of the Nth such
    frame and a nil [Audio]; the audio sink received the decoded audio of
    these frames, which are, in order, among the frames read and
    decoded. *)
Theorem events_match_written_frames (sched : list Label) (s : State)
    (r : option error) :
  run decode init sched = Some s ->
  result s = Some r ->
  ResponseChannel s = map response_of (frames_written decode None sched) /\
  length (ResponseChannel s) = length (frames_written decode None sched) /\
  (forall n input,
     nth_error (frames_written decode None sched) n = Some input ->
     exists ev,
       nth_error (ResponseChannel s) n = Some ev /\
       Out.Audio ev = [] /\
       Out.IsFinal ev = In.IsFinal input /\
       Out.NormalizedAlignment ev = In.NormalizedAlignment input /\
       Out.Alignment ev = In.Alignment input) /\
  map (fun input => decode (In.Audio input))
    (frames_written decode None sched) = map inr (AudioResponsePipe s) /\
  Subseq (frames_written decode None sched) (frames_decoded decode sched) /\
  decoded s = frames_decoded decode sched.
Proof.
  intros H Hres.
  pose proof (reachable_Inv decode s (ex_intro _ sched H)) as [_ _ _ Hj _].
  destruct (reachable_InvIO decode s (ex_intro _ sched H)) as [_ Hd Hau _ _ _].
  pose proof (frames_written_run decode sched init s Inv_init H) as Hp.
  pose proof (frames_decoded_run decode sched init s H) as Hdec.
  cbn in Hp, Hdec. rewrite Hp in Hd, Hau.
  unfold result in Hres. destruct (writer s); try discriminate Hres.
  assert (Hsent : ResponseChannel s =
                  map response_of (frames_written decode None sched)).
  { destruct Hj as [Hj|Hj]; rewrite Hj in Hd; exact Hd. }
  repeat split; try assumption.
  - now rewrite Hsent, length_map.
  - intros n input Hn. exists (response_of input).
    rewrite Hsent. split; [now apply map_nth_error | now repeat split].
  - exact (frames_written_decoded decode sched None).
Qed.

(** C9, amended: a failed write to the audio sink changes nothing but
    the place of the reader, which goes back to the head of its loop: no
    fault is recorded, nothing is sent on [ResponseChannel], the flags
    and the input context are as before and nothing is returned; from
    there the reader reads the next frame if the parent context is not
    cancelled and the driver is active, and returns otherwise. *)
Theorem failed_audio_write_is_skipped (s : State)
    (input : In.StreamingInputResponse) (b : list ascii) (e : error) :
  reader s = RPipe input b ->
  exists s' : State,
    step decode (PipeErr e) s = Some s' /\
    s' = set_reader RSelect s /\
    faults s' = faults s /\ errCh s' = errCh s /\
    ResponseChannel s' = ResponseChannel s /\
    AudioResponsePipe s' = AudioResponsePipe s /\
    driverActive s' = driverActive s /\ driverError s' = driverError s /\
    inputCtx_done s' = inputCtx_done s /\ conn_closed s' = conn_closed s /\
    writer s' = writer s /\ result s' = result s /\
    reader s' = RSelect /\
    (ctx_done s = false -> driverActive s = true ->
     run decode s' [Reader; Reader] = Some (set_reader RRead s)) /\
    (ctx_done s = true ->
     run decode s' [Reader] = Some (set_reader RDone s)) /\
    (ctx_done s = false -> driverActive s = false ->
     run decode s' [Reader; Reader] = Some (set_reader RDone s)).
Proof.
  intros Hr. exists (set_reader RSelect s).
  split; [cbn; now rewrite Hr|].
  repeat split.
  - intros Hc Ha. destruct s; cbn in *. now rewrite Hc, Ha.
  - intros Hc. destruct s; cbn in *. now rewrite Hc.
  - intros Hc Ha. destruct s; cbn in *. now rewrite Hc, Ha.
Qed.

(** X24: at most one fault is ever recorded in the slot and it is never
    replaced; when the call returns after a successful handshake the
    reader has stopped and the value returned is the fault recorded, nil
    if none was. *)
Theorem fault_slot_first_wins (sched : list Label) (s : State) :
  run decode init sched = Some s ->
  length (faults s) <= 1 /\
  (forall e, errCh s = Some e -> faults s = [e]) /\
  (forall e sched' s',
     faults s = [e] -> run decode s sched' = Some s' -> faults s' = [e]) /\
  (forall r, result s = Some r ->
     (reader s = RDone \/ reader s = RNotStarted) /\
     (reader s = RDone -> r = hd_error (faults s))).
Proof.
  intros H. pose proof (reachable_Inv decode s (ex_intro _ sched H)) as HI.
  split; [apply HI|]. split; [|split].
  - intros e He. destruct HI as [_ Hs Ho _ _].
    assert (Hslot : errCh s = hd_error (faults s) \/ errCh s = None).
    { destruct (writer s); try (left; exact Hs). right; apply Hs. }
    destruct Hslot as [Hslot|Hslot]; [|congruence].
    rewrite He in Hslot. destruct (faults s) as [|e1 [|e2 fl]];
      cbn in *; try discriminate; try lia; congruence.
  - intros e sched' s' Hf Hrun.
    apply (run_preserves decode (Recorded e) (Recorded_step decode e) sched' s s');
      [split; assumption | assumption].
  - intros r Hres. destruct HI as [_ Hs _ Hj _].
    unfold result in Hres. destruct (writer s); try discriminate Hres.
    injection Hres as ->. split; [exact Hj | apply Hs].
Qed.



(** With the watcher out of its loop and [driverActive] still set, as
    after it found [TextReader] closed, a failure of the reader's
    [ReadJSON] is what the call returns, whenever it returns. *)
Lemma read_error_after_loop_is_returned (sched : list Label) (s : State)
    (e : error) :
  run decode init sched = Some s ->
  in_loop (writer s) = false ->
  driverActive s = true ->
  reader s = RRead ->
  forall sched' s' r,
    run decode s (ReadErr e :: sched') = Some s' ->
    result s' = Some r -> r = Some e.
Proof.
  intros H Hl Ha Hr sched' s' r Hrun Hres.
  pose proof (ex_intro _ sched H : reachable decode s) as Hreach.
  simpl in Hrun. rewrite Hr in Hrun.
  assert (HR : ReadFailed e s').
  { apply (run_preserves decode _ (ReadFailed_step decode e) sched'
             (set_reader (RFault e) s) s'); [|exact Hrun].
    split; [|cbn; now repeat split].
    apply (reachable_Inv decode).
    apply (reachable_run decode s _ [ReadErr e] Hreach).
    rewrite run_one. cbn. now rewrite Hr. }
  destruct HR as ([_ Hs _ Hj _] & _ & _ & Hm).
  unfold result in Hres. destruct (writer s'); try discriminate Hres.
  injection Hres as ->. destruct Hs as [_ Hs].
  destruct Hj as [Hj|Hj]; rewrite Hj in Hm; [|contradiction].
  rewrite (Hs Hj), Hm. reflexivity.
Qed.

End Claims.

(** C1: the watcher finds [TextReader] closed, sends the last frame and
    closes the connection; the reader's [ReadJSON] then fails; the call
    returns that read error, not nil. *)
Theorem exhausted_input_returns_read_error :
  exists s0 s : State,
    run DecodeString init input_exhausted = Some s0 /\
    conn_written s0 = [EndOfInput] /\ faults s0 = [] /\ result s0 = None /\
    run DecodeString s0 (read_fails closed_conn) = Some s /\
    result s = Some (Some closed_conn) /\
    result s <> Some None.
Proof.
  do 2 eexists. repeat (split; [lazy; reflexivity|]). discriminate.
Qed.

(** C2, as stated: two tokens are received and written; the texts of
    the frames are the two tokens, not the fragment the chunker makes
    of them. *)
Theorem forwarded_frames_not_chunked :
  exists s : State,
    run DecodeString init two_tokens = Some s /\
    TextReader s = ["Hello"; "world"]%string /\
    written_texts s = ["Hello"; "world"]%string /\
    Chunker.fragments (TextReader s) = ["Helloworld"]%string /\
    written_texts s <> Chunker.fragments (TextReader s).
Proof.
  eexists. repeat (split; [lazy; reflexivity|]). discriminate.
Qed.

(** The amended C2 on the session [two_tokens]. *)
Lemma forwarded_frames_are_tokens_witness :
  exists s : State,
    run DecodeString init two_tokens = Some s /\
    Forall (fun ch => TryTriggerGeneration ch = true)
      (text_frames (conn_written s)) /\
    (exists pending : list string,
       TextReader s = written_texts s ++ pending /\ length pending <= 1) /\
    (writer s = WSelect -> TextReader s = written_texts s).
Proof.
  eexists. split; [lazy; reflexivity|].
  apply (forwarded_frames_are_tokens DecodeString two_tokens).
  lazy; reflexivity.
Defined.

(** C3, as stated: a frame is read and decoded, the write of its audio
    fails and the session ends: one frame was read and decoded and no
    value was sent on [ResponseChannel]. *)
Theorem failed_audio_write_drops_event :
  exists s : State,
    run DecodeString init audio_write_fails = Some s /\
    result s = Some None /\
    decoded s = [frame_hi] /\
    ResponseChannel s = [] /\
    length (ResponseChannel s) <> length (decoded s).
Proof.
  eexists. repeat (split; [lazy; reflexivity|]). discriminate.
Qed.

(** The amended C3 on the session [one_of_two_delivered]: two frames are
    read and decoded, the first is written and has its event. *)
Lemma events_match_written_frames_witness :
  exists s : State,
    run DecodeString init one_of_two_delivered = Some s /\
    frames_written DecodeString None one_of_two_delivered = [frame_hi] /\
    frames_decoded DecodeString one_of_two_delivered = [frame_hi; frame_final] /\
    ResponseChannel s =
      map response_of (frames_written DecodeString None one_of_two_delivered) /\
    length (ResponseChannel s) =
      length (frames_written DecodeString None one_of_two_delivered) /\
    (forall n input,
       nth_error (frames_written DecodeString None one_of_two_delivered) n =
         Some input ->
       exists ev,
         nth_error (ResponseChannel s) n = Some ev /\
         Out.Audio ev = [] /\
         Out.IsFinal ev = In.IsFinal input /\
         Out.NormalizedAlignment ev = In.NormalizedAlignment input /\
         Out.Alignment ev = In.Alignment input) /\
    map (fun input => DecodeString (In.Audio input))
      (frames_written DecodeString None one_of_two_delivered) =
      map inr (AudioResponsePipe s) /\
    Subseq (frames_written DecodeString None one_of_two_delivered)
      (frames_decoded DecodeString one_of_two_delivered) /\
    decoded s = frames_decoded DecodeString one_of_two_delivered.
Proof.
  eexists. split; [lazy; reflexivity|].
  split; [lazy; reflexivity|]. split; [lazy; reflexivity|].
  apply (events_match_written_frames DecodeString one_of_two_delivered _ None);
    lazy; reflexivity.
Defined.



(** C8: the write of a token fails and its error is recorded; the write
    of the last frame fails too; the send of this second error never
    completes: the second fault is not dropped, the watcher stays at
    that send, the slot keeps the first error and the call never
    returns. *)
Theorem second_fault_never_recorded :
  exists s0 : State,
    run DecodeString init two_write_failures = Some s0 /\
    faults s0 = [broken_pipe] /\
    writer s0 = WFinalErrSend reset_by_peer /\
    step DecodeString Writer s0 = None /\
    forall sched' s',
      run DecodeString s0 sched' = Some s' ->
      writer s' = WFinalErrSend reset_by_peer /\
      errCh s' = Some broken_pipe /\
      result s' = None.
Proof.
  eexists. repeat (split; [lazy; reflexivity|]).
  intros sched' s' Hrun.
  assert (HB : Blocked broken_pipe reset_by_peer s').
  { refine (run_preserves DecodeString _
              (Blocked_step DecodeString broken_pipe reset_by_peer)
              sched' _ s' _ Hrun).
    split; reflexivity. }
  destruct HB as [Hw Hc]. repeat split; [exact Hw | exact Hc |].
  unfold result. now rewrite Hw.
Qed.

(** [fault_slot_first_wins] on a session that records one fault and
    returns it. *)
Lemma fault_slot_first_wins_witness :
  exists s : State,
    run DecodeString init (input_exhausted ++ read_fails closed_conn) = Some s /\
    length (faults s) <= 1 /\
    (forall e, errCh s = Some e -> faults s = [e]) /\
    (forall e sched' s',
       faults s = [e] -> run DecodeString s sched' = Some s' -> faults s' = [e]) /\
    (forall r, result s = Some r ->
       (reader s = RDone \/ reader s = RNotStarted) /\
       (reader s = RDone -> r = hd_error (faults s))).
Proof.
  eexists. split; [lazy; reflexivity|].
  apply (fault_slot_first_wins DecodeString
           (input_exhausted ++ read_fails closed_conn)).
  lazy; reflexivity.
Defined.

(** C9, as stated: a frame is read and decoded, the parent context is
    cancelled and the write of the frame's audio fails; the reader goes
    back to the head of its loop and returns there: it reads no next
    frame. *)
Theorem failed_audio_write_then_reader_returns :
  exists s s1 : State,
    run DecodeString init audio_write_fails_cancelled = Some s /\
    reader s = RSelect /\ ctx_done s = true /\ faults s = [] /\
    step DecodeString Reader s = Some s1 /\
    reader s1 = RDone /\
    run DecodeString s [Reader; Reader] = None /\
    forall sched' s',
      run DecodeString s1 sched' = Some s' ->
      reader s' = RDone /\
      forall input, step DecodeString (ReadOk input) s' = None.
Proof.
  do 2 eexists. repeat (split; [lazy; reflexivity|]).
  intros sched' s' Hrun.
  assert (HJ : Joined s').
  { refine (run_preserves DecodeString _ (Joined_step DecodeString)
              sched' _ s' _ Hrun).
    split; [|reflexivity].
    apply (reachable_Inv DecodeString).
    exists (audio_write_fails_cancelled ++ [Reader]). lazy; reflexivity. }
  destruct HJ as [_ Hr]. split; [exact Hr|].
  intros input. cbn. now rewrite Hr.
Qed.

(** The amended C9 on the frame [frame_hi], read and decoded. *)
Lemma failed_audio_write_is_skipped_witness :
  exists s : State,
    run DecodeString init frame_decoded = Some s /\
    exists s' : State,
      step DecodeString (PipeErr sink_closed) s = Some s' /\
      s' = set_reader RSelect s /\
      faults s' = faults s /\ errCh s' = errCh s /\
      ResponseChannel s' = ResponseChannel s /\
      AudioResponsePipe s' = AudioResponsePipe s /\
      driverActive s' = driverActive s /\ driverError s' = driverError s /\
      inputCtx_done s' = inputCtx_done s /\ conn_closed s' = conn_closed s /\
      writer s' = writer s /\ result s' = result s /\
      reader s' = RSelect /\
      (ctx_done s = false -> driverActive s = true ->
       run DecodeString s' [Reader; Reader] = Some (set_reader RRead s)) /\
      (ctx_done s = true ->
       run DecodeString s' [Reader] = Some (set_reader RDone s)) /\
      (ctx_done s = false -> driverActive s = false ->
       run DecodeString s' [Reader; Reader] = Some (set_reader RDone s)).
Proof.
  eexists. split; [lazy; reflexivity|].
  apply (failed_audio_write_is_skipped DecodeString _ frame_hi
           ["h"%char; "i"%char] sink_closed).
  lazy; reflexivity.
Defined.



End SessionClaims.

Module ChunkerMore.

Import Chunker ChunkerShape GoStringFacts ChunkerFacts.

Lemma substring_split (s : string) (n : nat) :
  n <= String.length s ->
  s = substring 0 n s ++ substring n (String.length s - n) s.
Proof.
  revert n. induction s as [|c s IH]; intros [|n] Hn; simpl in *;
    try reflexivity; try lia.
  - now rewrite substring_all.
  - f_equal. apply IH. lia.
Qed.

Lemma HasSuffix_spec (s sub : string) :
  HasSuffix s sub = true <-> exists a : string, s = a ++ sub.
Proof.
  split.
  - unfold HasSuffix. intros H. apply andb_prop in H as [Hlen Heq].
    apply Nat.leb_le in Hlen. apply String.eqb_eq in Heq.
    exists (substring 0 (String.length s - String.length sub) s).
    pose proof (substring_split s (String.length s - String.length sub)
                  ltac:(lia)) as Hsp.
    replace (String.length s - (String.length s - String.length sub))
      with (String.length sub) in Hsp by lia.
    now rewrite Heq in Hsp.
  - intros (a & ->). apply HasSuffix_append.
Qed.

Lemma HasPrefix_spec (s sub : string) :
  HasPrefix s sub = true <-> exists b : string, s = sub ++ b.
Proof.
  unfold HasPrefix. revert s. induction sub as [|c sub IH]; intros s.
  - destruct s; simpl; split; intros; try reflexivity; eexists; reflexivity.
  - destruct s as [|d s]; simpl.
    + split; [discriminate | intros (b & Hb); discriminate Hb].
    + destruct (Ascii.ascii_dec c d) as [->|Hne].
      * rewrite IH. split; intros (b & Hb); exists b; [now rewrite Hb|].
        now injection Hb.
      * split; [discriminate|]. intros (b & Hb). injection Hb as Hd _.
        congruence.
Qed.

(** X1: [endsWithAny] holds exactly of the strings that end with one of the
    given substrings. *)
Theorem endsWithAny_spec (s : string) (subs : list string) :
  endsWithAny s subs = true <->
  exists sub a : string, In sub subs /\ s = a ++ sub.
Proof.
  unfold endsWithAny, endsWith. rewrite existsb_exists. split.
  - intros (sub & Hin & H). apply HasSuffix_spec in H as (a & Ha).
    now exists sub, a.
  - intros (sub & a & Hin & Ha). exists sub. split; [exact Hin|].
    apply HasSuffix_spec. now exists a.
Qed.

(** X2: [startsWithAny] holds exactly of the strings that start with one of
    the given substrings. *)
Theorem startsWithAny_spec (s : string) (subs : list string) :
  startsWithAny s subs = true <->
  exists sub b : string, In sub subs /\ s = sub ++ b.
Proof.
  unfold startsWithAny. rewrite existsb_exists. split.
  - intros (sub & Hin & H). apply HasPrefix_spec in H as (b & Hb).
    now exists sub, b.
  - intros (sub & b & Hin & Hb). exists sub. split; [exact Hin|].
    apply HasPrefix_spec. now exists b.
Qed.

Lemma chunk_token_sends_spaced (buffer t f buffer' : string) :
  chunk_token buffer t = (Some f, buffer') -> exists x : string, f = spaced x.
Proof.
  unfold chunk_token. intros H.
  destruct (endsWithAny buffer splitters).
  - injection H as <- _. now exists buffer.
  - destruct (startsWithAny t splitters); [|discriminate H].
    destruct t as [|b rest]; [discriminate H|].
    injection H as <- _. eexists; reflexivity.
Qed.

Lemma range_loop_sends_spaced (text : list string) (buffer : string) :
  Forall (fun f => endsWith f " " = true) (fst (range_loop buffer text)).
Proof.
  revert buffer. induction text as [|t text IH]; intros buffer; simpl.
  - constructor.
  - destruct (chunk_token buffer t) as [out buffer'] eqn:E.
    specialize (IH buffer'). destruct (range_loop buffer' text) as [outs final].
    simpl in *. destruct out as [f|]; [|exact IH].
    constructor; [|exact IH].
    apply chunk_token_sends_spaced in E as (x & ->).
    apply spaced_ends_with_space.
Qed.

(** X3: Every fragment sent while the input is open ends with a space, and
    no fragment at all is empty. *)
Theorem fragments_spaced_and_not_empty (text : list string) :
  Forall (fun f => endsWith f " " = true) (sent_while_open text) /\
  Forall (fun f => f <> "") (fragments text).
Proof.
  pose proof (range_loop_sends_spaced text "") as H.
  unfold sent_while_open, fragments.
  destruct (range_loop "" text) as [outs final]. simpl in H.
  split; [exact H|]. apply Forall_app. split.
  - eapply Forall_impl; [|exact H]. intros f Hf ->. discriminate Hf.
  - unfold final_sends. destruct (String.eqb_spec final ""); repeat constructor.
    assumption.
Qed.

Lemma range_loop_length (text : list string) (buffer : string) :
  length (fst (range_loop buffer text)) <= length text.
Proof.
  revert buffer. induction text as [|t text IH]; intros buffer; simpl; [lia|].
  destruct (chunk_token buffer t) as [out buffer'].
  specialize (IH buffer'). destruct (range_loop buffer' text) as [outs final].
  simpl in *. destruct out; simpl; lia.
Qed.

(** X4: A token makes at most one fragment: with the one sent at the close,
    there are at most as many fragments as tokens, and one. *)
Theorem fragments_at_most_one_per_token (text : list string) :
  length (sent_while_open text) <= length text /\
  length (fragments text) <= length text + 1.
Proof.
  pose proof (range_loop_length text "") as H.
  unfold sent_while_open, fragments.
  destruct (range_loop "" text) as [outs final]. simpl in H.
  split; [exact H|]. rewrite length_app. unfold final_sends.
  destruct (final =? "")%string; simpl; lia.
Qed.

Lemma range_loop_app (a b : list string) (buffer : string) :
  range_loop buffer (a ++ b)%list =
    ((fst (range_loop buffer a) ++
      fst (range_loop (snd (range_loop buffer a)) b))%list,
     snd (range_loop (snd (range_loop buffer a)) b)).
Proof.
  revert buffer. induction a as [|t a IH]; intros buffer; simpl.
  - now destruct (range_loop buffer b).
  - destruct (chunk_token buffer t) as [out buffer'].
    rewrite (IH buffer').
    destruct (range_loop buffer' a) as [outs final]. simpl.
    now destruct out.
Qed.

(** X5: What was sent is never revised: the fragments sent for the tokens
    received so far stay the first fragments sent whatever tokens follow,
    and the chunker goes on from the buffer it had. *)
Theorem sent_fragments_are_kept (a b : list string) :
  sent_while_open (a ++ b)%list =
    (sent_while_open a ++ fst (range_loop (buffer_at_close a) b))%list /\
  buffer_at_close (a ++ b)%list = snd (range_loop (buffer_at_close a) b).
Proof.
  unfold sent_while_open, buffer_at_close. now rewrite range_loop_app.
Qed.

Lemma has_space_app (a b : string) :
  has_space (a ++ b) = has_space a || has_space b.
Proof.
  induction a as [|c a IH]; simpl; [reflexivity|].
  now rewrite IH, orb_assoc.
Qed.

Lemma no_space_not_spaced (s : string) :
  has_space s = false -> endsWith s " " = false.
Proof.
  intros H. destruct (endsWith s " ") eqn:E; [|reflexivity].
  apply HasSuffix_spec in E as (a & ->).
  rewrite has_space_app in H. simpl in H.
  now rewrite orb_true_r in H.
Qed.

Lemma string_of_byte_no_space (b : ascii) :
  Nat.eqb (nat_of_ascii b) 32 = false -> has_space (string_of_byte b) = false.
Proof.
  intros H. unfold string_of_byte.
  pose proof (nat_ascii_bounded b) as Hb.
  destruct (Nat.ltb_spec (nat_of_ascii b) 128) as [Hlt|Hge]; cbn [has_space].
  - now rewrite H.
  - assert (Hq : nat_of_ascii b / 64 < 4)
      by (apply Nat.Div0.div_lt_upper_bound; lia).
    assert (Hr : nat_of_ascii b mod 64 < 64)
      by (apply Nat.mod_upper_bound; lia).
    rewrite !nat_ascii_embedding by lia.
    assert (H1 : Nat.eqb (192 + nat_of_ascii b / 64) 32 = false)
      by (apply Nat.eqb_neq; lia).
    assert (H2 : Nat.eqb (128 + nat_of_ascii b mod 64) 32 = false)
      by (apply Nat.eqb_neq; lia).
    now rewrite H1, H2.
Qed.

Lemma chunk_token_no_space (buffer t : string) :
  has_space buffer = false -> has_space t = false ->
  has_space (snd (chunk_token buffer t)) = false /\
  match fst (chunk_token buffer t) with
  | Some f => one_trailing_space f
  | None => True
  end.
Proof.
  intros Hb Ht. unfold chunk_token.
  destruct (endsWithAny buffer splitters); cbn [fst snd].
  - split; [exact Ht|]. exists buffer. split; [|exact Hb].
    unfold spaced. now rewrite (no_space_not_spaced buffer Hb).
  - destruct (startsWithAny t splitters); cbn [fst snd].
    + destruct t as [|b rest]; cbn [fst snd]; [split; [exact Hb | exact I]|].
      cbn [has_space] in Ht. apply orb_false_elim in Ht as [Hc Hrest].
      split; [exact Hrest|].
      assert (Hx : has_space (buffer ++ string_of_byte b) = false).
      { rewrite has_space_app, Hb. now apply string_of_byte_no_space. }
      exists (buffer ++ string_of_byte b). split; [|exact Hx].
      unfold spaced. now rewrite (no_space_not_spaced _ Hx).
    + split; [|exact I]. now rewrite has_space_app, Hb, Ht.
Qed.

Lemma range_loop_no_space (text : list string) :
  Forall (fun t => has_space t = false) text ->
  forall buffer : string,
    has_space buffer = false ->
    Forall one_trailing_space (fst (range_loop buffer text)) /\
    has_space (snd (range_loop buffer text)) = false.
Proof.
  induction 1 as [|t text Ht _ IH]; intros buffer Hb; simpl.
  - split; [constructor | exact Hb].
  - destruct (chunk_token_no_space buffer t Hb Ht) as [Hb' Hf].
    destruct (chunk_token buffer t) as [out buffer']. simpl in *.
    destruct (IH buffer' Hb') as [Hfs Hfinal].
    destruct (range_loop buffer' text) as [outs final]. simpl in *.
    split; [|exact Hfinal]. destruct out; [now constructor | exact Hfs].
Qed.

(** X6: When no token holds a space (as for words split on white space),
    every fragment sent while the input is open is a text without space
    and then one space, and the buffer sent at the close holds no
    space. *)
Theorem space_free_tokens_one_space_each (text : list string) :
  Forall (fun t => has_space t = false) text ->
  Forall one_trailing_space (sent_while_open text) /\
  has_space (buffer_at_close text) = false.
Proof.
  intros H. exact (range_loop_no_space text H "" eq_refl).
Qed.

(** The theorem on the words "Hello", ",world", "!". *)
Lemma space_free_tokens_one_space_each_witness :
  Forall (fun t => has_space t = false) ["Hello"; ",world"; "!"] /\
  Forall one_trailing_space (sent_while_open ["Hello"; ",world"; "!"]) /\
  has_space (buffer_at_close ["Hello"; ",world"; "!"]) = false.
Proof.
  split; [repeat constructor|].
  apply (space_free_tokens_one_space_each ["Hello"; ",world"; "!"]).
  repeat constructor.
Defined.

(** X7: When every token is empty or starts with a byte below 0x80, the
    fragments give back the tokens: with the spaces added by the flushes
    taken away, their concatenation is that of the tokens. *)
Theorem ascii_tokens_are_reconstructed (text : list string) :
  Forall ascii_head text -> reconstructs (fragments text) text.
Proof.
  intros H. destruct (range_loop_keeps_bytes text H "") as (bodies & Hb & Hj).
  unfold fragments. destruct (range_loop "" text) as [outs final]. simpl in *.
  exists (bodies ++ final_sends final)%list. split.
  - apply Forall2_app; [exact Hb|].
    unfold final_sends. destruct (final =? "")%string; repeat constructor.
  - rewrite join_app, <- Hj. f_equal.
    unfold final_sends. destruct (String.eqb_spec final "") as [->|_];
      simpl; [reflexivity | apply append_nil_r].
Qed.

(** The theorem on "Hello", ",world", "!". *)
Lemma ascii_tokens_are_reconstructed_witness :
  Forall ascii_head ["Hello"; ",world"; "!"] /\
  reconstructs (fragments ["Hello"; ",world"; "!"]) ["Hello"; ",world"; "!"].
Proof.
  split; [repeat constructor; cbn; lia|].
  apply (ascii_tokens_are_reconstructed ["Hello"; ",world"; "!"]).
  repeat constructor; cbn; lia.
Defined.

End ChunkerMore.

Module SessionMore.

Import Session SessionShape SessionFacts Scenarios MoreScenarios.
Local Open Scope list_scope.

Section More.

Variable decode : string -> error + list ascii.

Lemma Inv2_init : Inv2 init.
Proof.
  constructor; cbn; auto.
  - intros [H|H]; discriminate H.
  - discriminate.
Qed.

Lemma Inv2_step (l : Label) (s s' : State) :
  Inv s -> Inv2 s -> step decode l s = Some s' -> Inv2 s'.
Proof.
  intros [Ha Hs _ Hj _] [Hc Hfr Hsd Hx] H. step_inversion H.
  all: cbn in *.
  all: constructor; cbn; rewrite ?text_frames_app, ?map_app; cbn;
    rewrite ?app_nil_r.
  all: try solve [ auto | discriminate | intuition (try congruence; try discriminate) ].
  all: intros _; try (right; left); destruct fl; discriminate.
Qed.

Lemma reachable_Inv2 (s : State) : reachable decode s -> Inv2 s.
Proof.
  intros H. cut (Inv s /\ Inv2 s); [tauto|].
  revert s H. apply reachable_preserves.
  - split; [exact Inv_init | exact Inv2_init].
  - intros l s s' [HI HI2] H. split;
      [eapply Inv_step | eapply Inv2_step]; eassumption.
Qed.

(** Once the call has returned nothing moves any more. *)
Lemma Returned_step (res : option error) (frames : list frame)
    (sent : list Out.StreamingOutputResponse) (written : list (list ascii))
    (taken : list string) (l : Label) (s s' : State) :
  Returned res frames sent written taken s -> step decode l s = Some s' ->
  Returned res frames sent written taken s'.
Proof.
  unfold Returned. intros (Hw & Hr & H1 & H2 & H3 & H4) H. step_inversion H.
  all: cbn in *; subst; try discriminate; try (destruct Hr; discriminate).
  all: repeat split; solve [reflexivity | assumption].
Qed.

(** After a cancellation the input watcher writes and receives no more. *)
Lemma ShutDown_step (frames : list frame) (taken : list string)
    (l : Label) (s s' : State) :
  ShutDown frames taken s -> step decode l s = Some s' ->
  ShutDown frames taken s'.
Proof.
  unfold ShutDown. intros (Ha & Hw & H1 & H2) H. step_inversion H.
  all: cbn in *; subst; try discriminate.
  all: repeat split; solve [reflexivity | assumption].
Qed.

(** After the input watcher recorded a failed write, the reader records
    nothing and only returns on a cancelled context. *)
Lemma WriteFailed_step (e : error) (l : Label) (s s' : State) :
  WriteFailed e s -> step decode l s = Some s' -> WriteFailed e s'.
Proof.
  intros (HI & Hf & Ha & Hw & Hr1 & Hr2 & Hr3 & Hd) H.
  split; [eapply Inv_step; eassumption|].
  destruct HI as [_ Hs _ Hj _]. step_inversion H.
  all: cbn in *; subst; try discriminate; try contradiction;
    try (destruct Hj; discriminate).
  all: repeat split; try solve [reflexivity | assumption | discriminate].
  all: try (intros _; apply Hd; reflexivity).
Qed.

(** A reader that was not started at the handshake never is. *)
Lemma NeverStarted_step (l : Label) (s s' : State) :
  NeverStarted s -> step decode l s = Some s' -> NeverStarted s'.
Proof.
  unfold NeverStarted. intros [Hr Hw] H. step_inversion H.
  all: cbn in *; try discriminate; try contradiction; split;
    solve [reflexivity | discriminate].
Qed.

(** A flag that was switched stays switched. *)
Lemma Switched_step (s0 : State) (l : Label) (s s' : State) :
  Switched s0 s -> step decode l s = Some s' -> Switched s0 s'.
Proof.
  unfold Switched. intros (H1 & H2 & H3 & H4 & H5) H. step_inversion H.
  all: cbn in *; repeat split; intros; auto; try congruence.
Qed.


Lemma EndOfInput_not_text (l : list textChunk) : ~ In EndOfInput (map TextFrame l).
Proof. induction l as [|c l IH]; simpl; [tauto|]. intros [H|H]; [discriminate | tauto]. Qed.

(** X8: After a successful handshake the call only returns with the
    connection closed and the reader goroutine finished. *)
Theorem connection_closed_before_return (sched : list Label) (s : State)
    (r : option error) :
  run decode init sched = Some s ->
  result s = Some r ->
  reader s <> RNotStarted ->
  conn_closed s = true /\ reader s = RDone.
Proof.
  intros H Hres Hr.
  pose proof (reachable_Inv decode s (ex_intro _ sched H)) as [_ _ _ Hj _].
  pose proof (reachable_Inv2 s (ex_intro _ sched H)) as [Hc _ _ _].
  unfold result in Hres. destruct (writer s); try discriminate Hres.
  destruct Hj as [Hj|Hj]; [|contradiction]. split; [now apply Hc | exact Hj].
Qed.

(** X9: What is written on the connection is text frames and then, at most
    once and last, the frame that ends the input; once that frame is
    written the input watcher writes nothing more. *)
Theorem end_of_input_frame_is_last (sched : list Label) (s : State) :
  run decode init sched = Some s ->
  (conn_written s = map TextFrame (text_frames (conn_written s)) \/
   conn_written s =
     map TextFrame (text_frames (conn_written s)) ++ [EndOfInput]) /\
  (In EndOfInput (conn_written s) -> done_writing (writer s) = true).
Proof.
  intros H.
  pose proof (reachable_Inv2 s (ex_intro _ sched H)) as [_ Hfr _ _].
  split; [destruct Hfr as [Hfr|[_ Hfr]]; auto|].
  intros Hin. destruct Hfr as [Hfr|[Hd _]]; [|exact Hd].
  rewrite Hfr in Hin. now apply EndOfInput_not_text in Hin.
Qed.

(** X10: Once the call has returned, its result stands and nothing more is
    written on the connection, sent on [ResponseChannel], written to the
    audio sink or received from [TextReader]. *)
Theorem nothing_moves_after_return (sched : list Label) (s : State)
    (r : option error) :
  run decode init sched = Some s ->
  result s = Some r ->
  forall sched' s',
    run decode s sched' = Some s' ->
    result s' = Some r /\
    conn_written s' = conn_written s /\
    ResponseChannel s' = ResponseChannel s /\
    AudioResponsePipe s' = AudioResponsePipe s /\
    TextReader s' = TextReader s.
Proof.
  intros H Hres sched' s' Hrun.
  pose proof (reachable_Inv decode s (ex_intro _ sched H)) as [_ _ _ Hj _].
  unfold result in Hres. destruct (writer s) eqn:Hw; try discriminate Hres.
  injection Hres as ->.
  assert (HR : Returned r (conn_written s) (ResponseChannel s)
                 (AudioResponsePipe s) (TextReader s) s').
  { refine (run_preserves decode _ (Returned_step _ _ _ _ _) sched' s s' _ Hrun).
    unfold Returned. now repeat split. }
  destruct HR as (Hw' & _ & H1 & H2 & H3 & H4).
  unfold result. rewrite Hw'. now repeat split.
Qed.

(** X11: When the input watcher leaves its loop on a cancellation, of the
    parent context or of the input context, it writes nothing more on
    the connection, not even the frame that ends the input, and receives
    nothing more from [TextReader]. *)
Theorem cancellation_writes_no_last_frame (l : Label) (s s1 : State) :
  l = CtxDone \/ l = InputDone ->
  step decode l s = Some s1 ->
  forall sched' s',
    run decode s1 sched' = Some s' ->
    conn_written s' = conn_written s /\ TextReader s' = TextReader s.
Proof.
  intros Hl Hstep sched' s' Hrun.
  assert (HS : ShutDown (conn_written s) (TextReader s) s').
  { refine (run_preserves decode _ (ShutDown_step _ _) sched' s1 s' _ Hrun).
    unfold ShutDown. destruct Hl as [-> | ->]; cbn in Hstep;
      destruct (writer s); try discriminate Hstep;
      [destruct (ctx_done s) | destruct (inputCtx_done s)];
      try discriminate Hstep; injection Hstep as <-; now repeat split. }
  destruct HS as (_ & _ & H1 & H2). now split.
Qed.

(** X12: The audio of a frame is written before its event is sent: there are
    never more events sent than audio writes, and at most one less; the
    events are those of the first frames written, in order; and the
    writes are the decoded audio of the frames written. *)
Theorem audio_written_before_event (sched : list Label) (s : State) :
  run decode init sched = Some s ->
  length (ResponseChannel s) <= length (AudioResponsePipe s) /\
  length (AudioResponsePipe s) <= S (length (ResponseChannel s)) /\
  ResponseChannel s =
    map response_of (firstn (length (ResponseChannel s)) (piped s)) /\
  map (fun input => decode (In.Audio input)) (piped s) =
    map inr (AudioResponsePipe s).
Proof.
  intros H.
  destruct (reachable_InvIO decode s (ex_intro _ sched H)) as [_ Hd Hau _ _ _].
  assert (Hlen : length (AudioResponsePipe s) = length (piped s)).
  { apply (f_equal (@length _)) in Hau. now rewrite !length_map in Hau. }
  assert (Hcase : exists p,
             ResponseChannel s = map response_of p /\
             (piped s = p \/ exists input, piped s = p ++ [input])).
  { destruct (reader s); try (exists (piped s); split; [exact Hd | now left]).
    destruct Hd as (p & Hp & Hrc). exists p. split; [exact Hrc|].
    right. now exists input. }
  destruct Hcase as (p & Hrc & Hp).
  rewrite Hlen, Hrc, length_map.
  destruct Hp as [Hp|(input & Hp)]; rewrite Hp.
  - rewrite firstn_all. repeat split; auto; try lia. now rewrite <- Hp.
  - rewrite length_app, firstn_app, firstn_all, Nat.sub_diag. simpl.
    rewrite app_nil_r. repeat split; auto; try lia. now rewrite <- Hp.
Qed.

(** X13: When the write of a token fails and its error is recorded, the call
    can only return that error, and only once the parent context is
    cancelled. *)
Theorem write_failure_returns_only_if_cancelled (sched : list Label)
    (s : State) (e : error) :
  run decode init sched = Some s ->
  writer s = WErrSend e ->
  errCh s = None ->
  exists s1 : State,
    step decode Writer s = Some s1 /\
    faults s1 = [e] /\
    forall sched' s' r,
      run decode s1 sched' = Some s' ->
      result s' = Some r ->
      r = Some e /\ ctx_done s' = true.
Proof.
  intros H Hw Hc.
  pose proof (ex_intro _ sched H : reachable decode s) as Hreach.
  pose proof (reachable_Inv decode s Hreach) as HI.
  pose proof (reachable_Inv2 s Hreach) as [_ _ Hsd Hx].
  assert (Hf : faults s = []).
  { destruct HI as [_ Hs _ _ _]. rewrite Hw, Hc in Hs.
    destruct (faults s); [reflexivity | discriminate Hs]. }
  assert (Ha : driverActive s = true).
  { destruct HI as [Ha _ _ _ _]. apply Ha. now rewrite Hw. }
  assert (Hn : reader s <> RNotStarted).
  { destruct HI as [_ _ _ Hj _]. now rewrite Hw in Hj. }
  assert (Hstep : exists s1, step decode Writer s = Some s1 /\
                             faults s1 = [e] /\ WriteFailed e s1).
  { destruct s as [act err ch ic cd cc r w cw ap rc tr dec pip fl].
    cbn in Hw, Hc, Hf, Ha, Hn, Hsd, Hx. subst.
    eexists. split; [lazy; reflexivity|]. split; [reflexivity|].
    split.
    - apply (Inv_step decode Writer _ _ HI). lazy; reflexivity.
    - cbn. repeat split; try assumption.
      + intros Hr. apply Hsd; [now left | reflexivity].
      + intros Hr. apply Hsd; [now right | reflexivity].
      + intros Hr. destruct (Hx Hr) as [Hd|[Hd|Hd]];
          [exact Hd | now contradiction Hd | discriminate Hd]. }
  destruct Hstep as (s1 & Hs1 & Hf1 & HW). exists s1.
  split; [exact Hs1|]. split; [exact Hf1|].
  intros sched' s' r Hrun Hres.
  pose proof (run_preserves decode _ (WriteFailed_step e) sched' s1 s' HW Hrun)
    as ([_ Hs' _ Hj' _] & Hf' & _ & _ & _ & _ & Hn' & Hd').
  unfold result in Hres. destruct (writer s'); try discriminate Hres.
  injection Hres as ->. destruct Hj' as [Hj'|Hj']; [|contradiction].
  destruct Hs' as [_ Hs']. rewrite (Hs' Hj'), Hf'. split; [reflexivity|].
  now apply Hd'.
Qed.

(** X14: A failed handshake is returned at once: the reader is never
    started, nothing is written on the connection, sent, written to the
    audio sink or received, whatever happens next. *)
Theorem handshake_failure_is_returned (e : error) (sched : list Label)
    (s : State) :
  run decode init (Handshake (Some e) :: sched) = Some s ->
  result s = Some (Some e) /\ reader s = RNotStarted /\
  conn_written s = [] /\ ResponseChannel s = [] /\
  AudioResponsePipe s = [] /\ TextReader s = [].
Proof.
  intros H. cbn in H.
  assert (HR : Returned (Some e) [] [] [] [] s).
  { refine (run_preserves decode _ (Returned_step _ _ _ _ _) sched _ s _ H).
    unfold Returned; cbn. repeat split. now right. }
  assert (HN : NeverStarted s).
  { refine (run_preserves decode _ NeverStarted_step sched _ s _ H).
    split; [reflexivity | discriminate]. }
  destruct HN as [HN _].
  destruct HR as (Hw & _ & H1 & H2 & H3 & H4).
  unfold result. rewrite Hw. now repeat split.
Qed.

(** X16: Once the input watcher has left its loop with [driverActive]
    still set, as it does when [TextReader] is closed, a failure of the
    reader's [ReadJSON] is what the call returns, whenever it returns. *)
Theorem read_error_after_exhausted_input (sched : list Label) (s : State)
    (e : error) :
  run decode init sched = Some s ->
  in_loop (writer s) = false ->
  driverActive s = true ->
  reader s = RRead ->
  forall sched' s' r,
    run decode s (ReadErr e :: sched') = Some s' ->
    result s' = Some r -> r = Some e.
Proof.
  intros H Hl Ha Hr sched' s' r Hrun Hres.
  pose proof (ex_intro _ sched H : reachable decode s) as Hreach.
  simpl in Hrun. rewrite Hr in Hrun.
  assert (HR : ReadFailed e s').
  { apply (run_preserves decode _ (ReadFailed_step decode e) sched'
             (set_reader (RFault e) s) s'); [|exact Hrun].
    split; [|cbn; now repeat split].
    apply (reachable_Inv decode).
    apply (reachable_run decode s _ [ReadErr e] Hreach).
    rewrite run_one. cbn. now rewrite Hr. }
  destruct HR as ([_ Hs _ Hj _] & _ & _ & Hm).
  unfold result in Hres. destruct (writer s'); try discriminate Hres.
  injection Hres as ->. destruct Hs as [_ Hs].
  destruct Hj as [Hj|Hj]; rewrite Hj in Hm; [|contradiction].
  rewrite (Hs Hj), Hm. reflexivity.
Qed.

(** X15: Shutting down is for good: once [driverActive] is cleared,
    [driverError] set, a context cancelled or the connection closed, it
    stays so. *)
Theorem switched_flags_stay (s s' : State) (sched : list Label) :
  run decode s sched = Some s' ->
  (driverActive s = false -> driverActive s' = false) /\
  (driverError s = true -> driverError s' = true) /\
  (inputCtx_done s = true -> inputCtx_done s' = true) /\
  (ctx_done s = true -> ctx_done s' = true) /\
  (conn_closed s = true -> conn_closed s' = true).
Proof.
  intros H.
  refine (run_preserves decode (Switched s) (Switched_step s) sched s s' _ H).
  unfold Switched. now repeat split.
Qed.

End More.
(** [connection_closed_before_return] on a session that returns a read
    error. *)
Lemma connection_closed_before_return_witness :
  exists s : State,
    run DecodeString init (input_exhausted ++ read_fails closed_conn) = Some s /\
    conn_closed s = true /\ reader s = RDone.
Proof.
  eexists. split; [lazy; reflexivity|].
  apply (connection_closed_before_return DecodeString
           (input_exhausted ++ read_fails closed_conn) _ (Some closed_conn));
    [lazy; reflexivity | lazy; reflexivity | discriminate].
Defined.

(** [end_of_input_frame_is_last] on the session [two_tokens]. *)
Lemma end_of_input_frame_is_last_witness :
  exists s : State,
    run DecodeString init two_tokens = Some s /\
    (conn_written s = map TextFrame (text_frames (conn_written s)) \/
     conn_written s =
       map TextFrame (text_frames (conn_written s)) ++ [EndOfInput]) /\
    (In EndOfInput (conn_written s) -> done_writing (writer s) = true).
Proof.
  eexists. split; [lazy; reflexivity|].
  apply (end_of_input_frame_is_last DecodeString two_tokens).
  lazy; reflexivity.
Defined.

(** [nothing_moves_after_return] on the session [audio_write_fails]. *)
Lemma nothing_moves_after_return_witness :
  exists s : State,
    run DecodeString init audio_write_fails = Some s /\
    forall sched' s',
      run DecodeString s sched' = Some s' ->
      result s' = Some None /\
      conn_written s' = conn_written s /\
      ResponseChannel s' = ResponseChannel s /\
      AudioResponsePipe s' = AudioResponsePipe s /\
      TextReader s' = TextReader s.
Proof.
  eexists. split; [lazy; reflexivity|].
  apply (nothing_moves_after_return DecodeString audio_write_fails);
    lazy; reflexivity.
Defined.

(** [cancellation_writes_no_last_frame] on a session cancelled while
    the reader waits. *)
Lemma cancellation_writes_no_last_frame_witness :
  exists s s1 : State,
    run DecodeString init cancel_while_reading = Some s /\
    step DecodeString CtxDone s = Some s1 /\
    forall sched' s',
      run DecodeString s1 sched' = Some s' ->
      conn_written s' = conn_written s /\ TextReader s' = TextReader s.
Proof.
  do 2 eexists. split; [lazy; reflexivity|]. split; [lazy; reflexivity|].
  apply (cancellation_writes_no_last_frame DecodeString CtxDone);
    [now left | lazy; reflexivity].
Defined.

(** [audio_written_before_event] on a session with an event waiting to
    be taken. *)
Lemma audio_written_before_event_witness :
  exists s : State,
    run DecodeString init event_pending = Some s /\
    length (ResponseChannel s) <= length (AudioResponsePipe s) /\
    length (AudioResponsePipe s) <= S (length (ResponseChannel s)) /\
    ResponseChannel s =
      map response_of (firstn (length (ResponseChannel s)) (piped s)) /\
    map (fun input => DecodeString (In.Audio input)) (piped s) =
      map inr (AudioResponsePipe s).
Proof.
  eexists. split; [lazy; reflexivity|].
  apply (audio_written_before_event DecodeString event_pending).
  lazy; reflexivity.
Defined.

(** [write_failure_returns_only_if_cancelled] on a session whose first
    token cannot be written. *)
Lemma write_failure_returns_only_if_cancelled_witness :
  exists s : State,
    run DecodeString init token_write_failed = Some s /\
    exists s1 : State,
      step DecodeString Writer s = Some s1 /\
      faults s1 = [broken_pipe] /\
      forall sched' s' r,
        run DecodeString s1 sched' = Some s' ->
        result s' = Some r ->
        r = Some broken_pipe /\ ctx_done s' = true.
Proof.
  eexists. split; [lazy; reflexivity|].
  apply (write_failure_returns_only_if_cancelled DecodeString
           token_write_failed);
    lazy; reflexivity.
Defined.

(** [handshake_failure_is_returned] on a refused dial. *)
Lemma handshake_failure_is_returned_witness :
  exists s : State,
    run DecodeString init [Handshake (Some dial_refused); Cancel] = Some s /\
    result s = Some (Some dial_refused) /\ reader s = RNotStarted /\
    conn_written s = [] /\ ResponseChannel s = [] /\
    AudioResponsePipe s = [] /\ TextReader s = [].
Proof.
  eexists. split; [lazy; reflexivity|].
  apply (handshake_failure_is_returned DecodeString dial_refused [Cancel]).
  lazy; reflexivity.
Defined.

(** [switched_flags_stay] from the state the session [all_switched] ends
    in, where every flag is switched, to the return of the call. *)
Lemma switched_flags_stay_witness :
  exists s s' : State,
    run DecodeString init all_switched = Some s /\
    (driverActive s = false /\ driverError s = true /\
     inputCtx_done s = true /\ ctx_done s = true /\ conn_closed s = true) /\
    run DecodeString s [Writer; Writer] = Some s' /\
    result s' = Some (Some conn_reset) /\
    (driverActive s = false -> driverActive s' = false) /\
    (driverError s = true -> driverError s' = true) /\
    (inputCtx_done s = true -> inputCtx_done s' = true) /\
    (ctx_done s = true -> ctx_done s' = true) /\
    (conn_closed s = true -> conn_closed s' = true).
Proof.
  do 2 eexists. split; [lazy; reflexivity|].
  split; [repeat split; reflexivity|].
  split; [lazy; reflexivity|]. split; [lazy; reflexivity|].
  apply (switched_flags_stay DecodeString _ _ [Writer; Writer]).
  lazy; reflexivity.
Defined.

(** [read_error_after_exhausted_input] on the session
    [input_exhausted]. *)
Lemma read_error_after_exhausted_input_witness :
  exists s : State,
    run DecodeString init input_exhausted = Some s /\
    forall sched' s' r,
      run DecodeString s (ReadErr closed_conn :: sched') = Some s' ->
      result s' = Some r -> r = Some closed_conn.
Proof.
  eexists. split; [lazy; reflexivity|].
  apply (read_error_after_exhausted_input DecodeString input_exhausted);
    lazy; reflexivity.
Defined.

End SessionMore.

Module HttpFacts.

Import Http.
Local Open Scope list_scope.

Lemma apply_queries_app (a b : list QueryFunc) (q : Values) :
  apply_queries (a ++ b) q = apply_queries b (apply_queries a q).
Proof. unfold apply_queries. apply fold_left_app. Qed.

Lemma query_func_is_Add (call : query_call) :
  query_func call = Add (query_key call) (query_value call).
Proof. now destruct call. Qed.

(** X17: Query functions add up and never replace: after the functions made
    by a sequence of calls, the values under a key are those it had,
    then the values the calls for that key gave, in the order of the
    calls; calls for other keys change nothing under it. *)
Theorem apply_queries_adds (calls : list query_call) (q : Values)
    (k : string) :
  apply_queries (map query_func calls) q k = q k ++ values_for k calls.
Proof.
  revert q. induction calls as [|call calls IH]; intros q.
  - simpl. now rewrite app_nil_r.
  - unfold apply_queries in *. cbn [map fold_left]. rewrite IH.
    rewrite query_func_is_Add. unfold Add, values_for.
    cbn [filter]. destruct (String.eqb k (query_key call)); cbn [map];
      [now rewrite <- app_assoc | reflexivity].
Qed.

Lemma getDefaultClient_idem (g : Global) :
  getDefaultClient (fst (getDefaultClient g)) = getDefaultClient g.
Proof. now destruct g. Qed.

Lemma default_client_after_calls_from (ops : list setter) (c : Client) :
  snd (getDefaultClient (fold_left call ops (Some c))) =
  {| baseURL := baseURL c; baseWSUrl := baseWSUrl c;
     apiKey := last_key (apiKey c) ops;
     timeout := last_timeout (timeout c) ops; ctx := ctx c |}.
Proof.
  revert c. induction ops as [|[key|t] ops IH]; intros c; simpl.
  - now destruct c.
  - unfold SetAPIKey. simpl. now rewrite IH.
  - unfold SetTimeout. simpl. now rewrite IH.
Qed.

(** X18: After any calls of [SetAPIKey] and [SetTimeout], the default client
    has the key of the last [SetAPIKey] (none: the empty key), the
    timeout of the last [SetTimeout] (none: 30 seconds), the two base
    URLs of the package and the background context. *)
Theorem default_client_after_calls (ops : list setter) :
  snd (getDefaultClient (fold_left call ops None)) =
  {| baseURL := elevenlabsBaseURL; baseWSUrl := elevenlabsBaseWSURL;
     apiKey := last_key "" ops;
     timeout := last_timeout defaultTimeout ops; ctx := Background |}.
Proof.
  destruct ops as [|op ops]; [reflexivity|].
  destruct op as [key|t]; simpl; unfold SetAPIKey, SetTimeout; simpl;
    now rewrite default_client_after_calls_from.
Qed.

Section RequestFacts.

Variable W : World.

(** X19: [doRequest] returns nil exactly when the request could be made, the
    answer has status 200 and a body that could be read, and that body
    is empty or taken whole, without error, by the writer. *)
Theorem doRequest_returns_nil_iff (c : Client)
    (Write : list ascii -> nat * option error) (method urlStr : string)
    (bodyBuf : option (list ascii * option error)) (contentType : string)
    (queries : list QueryFunc) :
  ret (doRequest W c Write method urlStr bodyBuf contentType queries) = None <->
  NewRequestError W method urlStr = None /\
  exists (resp : Response) (respBytes : list ascii),
    Do W (built W c method urlStr (option_map fst bodyBuf) contentType queries)
      = inr resp /\
    StatusCode resp = 200%Z /\
    RespBody resp = (respBytes, None) /\
    (respBytes = [] \/ Write respBytes = (length respBytes, None)).
Proof.
  unfold doRequest, built.
  destruct (NewRequestError W method urlStr) as [err|]; simpl.
  { split; [discriminate | intros [H _]; discriminate H]. }
  destruct (Do W _) as [err|resp]; simpl.
  { split; [discriminate | intros [_ (r & b & H & _)]; discriminate H]. }
  destruct (RespBody resp) as [respBytes [err|]] eqn:Hb; simpl.
  { split; [discriminate|].
    intros [_ (r & b & H & _ & H2 & _)]. injection H as <-.
    rewrite Hb in H2. discriminate H2. }
  destruct (Z.eqb_spec (StatusCode resp) 200) as [Hc|Hc].
  - unfold copy_body. destruct respBytes as [|x respBytes]; simpl.
    + split; [|reflexivity]. intros _. split; [reflexivity|].
      exists resp, []. auto.
    + destruct (Write (x :: respBytes)) as [m [e|]] eqn:Hw; simpl.
      * split; [discriminate|].
        intros [_ (r & b & H & _ & H2 & [H3|H3])]; injection H as <-;
          rewrite Hb in H2; injection H2 as <-;
          [discriminate H3 | rewrite Hw in H3; discriminate H3].
      * destruct (Nat.eqb_spec m (S (length respBytes))) as [->|Hm].
        -- split; [|reflexivity]. intros _. split; [reflexivity|].
           exists resp, (x :: respBytes). auto.
        -- split; [discriminate|].
           intros [_ (r & b & H & _ & H2 & [H3|H3])]; injection H as <-;
             rewrite Hb in H2; injection H2 as <-;
             [discriminate H3 | rewrite Hw in H3; simpl in H3; congruence].
  - simpl. split; [discriminate|].
    intros [_ (r & b & H & H1 & _)]. injection H as <-. contradiction.
Qed.

(** X20: [doRequest] gives the writer nothing but the whole body of an
    answer of status 200, and only a body that is not empty: the body of
    an answer of another status never reaches the writer. *)
Theorem doRequest_writes_only_ok_body (c : Client)
    (Write : list ascii -> nat * option error) (method urlStr : string)
    (bodyBuf : option (list ascii * option error)) (contentType : string)
    (queries : list QueryFunc) (p : list ascii) :
  wrote (doRequest W c Write method urlStr bodyBuf contentType queries) = Some p ->
  p <> [] /\
  exists resp : Response,
    Do W (built W c method urlStr (option_map fst bodyBuf) contentType queries)
      = inr resp /\
    StatusCode resp = 200%Z /\ RespBody resp = (p, None).
Proof.
  unfold doRequest, built.
  destruct (NewRequestError W method urlStr) as [err|]; simpl; [discriminate|].
  destruct (Do W _) as [err|resp]; simpl; [discriminate|].
  destruct (RespBody resp) as [respBytes [err|]] eqn:Hb; simpl; [discriminate|].
  destruct (Z.eqb_spec (StatusCode resp) 200) as [Hc|Hc]; simpl; [|discriminate].
  unfold copy_body. destruct respBytes as [|x respBytes]; simpl; [discriminate|].
  destruct (Write (x :: respBytes)) as [m e]. simpl. intros H.
  injection H as <-. split; [discriminate|]. now exists resp.
Qed.

(** X21: An answer whose status is not 200 always makes [doRequest] return
    an error: the decoded [APIError] for 400 and 401, the decoded
    [ValidationError] for 422, or the failure of that decoding, and an
    error of the status for every other code. *)
Theorem doRequest_status_errors (c : Client)
    (Write : list ascii -> nat * option error) (method urlStr : string)
    (bodyBuf : option (list ascii * option error)) (contentType : string)
    (queries : list QueryFunc) (resp : Response) (respBytes : list ascii) :
  NewRequestError W method urlStr = None ->
  Do W (built W c method urlStr (option_map fst bodyBuf) contentType queries)
    = inr resp ->
  RespBody resp = (respBytes, None) ->
  StatusCode resp <> 200%Z ->
  let code := StatusCode resp in
  let r := ret (doRequest W c Write method urlStr bodyBuf contentType queries) in
  r <> None /\
  (code = 400%Z \/ code = 401%Z ->
   (exists e, UnmarshalAPIError W respBytes = inr e /\ r = Some (IsAPIError e)) \/
   (exists err, UnmarshalAPIError W respBytes = inl err /\
                r = Some (UnmarshalAPIErrorFailed err))) /\
  (code = 422%Z ->
   (exists e, UnmarshalValidationError W respBytes = inr e /\
              r = Some (IsValidationError e)) \/
   (exists err, UnmarshalValidationError W respBytes = inl err /\
                r = Some (UnmarshalValidationErrorFailed err))) /\
  (code <> 400%Z -> code <> 401%Z -> code <> 422%Z ->
   r = Some (UnexpectedStatus code)).
Proof.
  intros Hn Hd Hb Hc. unfold doRequest. fold (built W c method urlStr
    (option_map fst bodyBuf) contentType queries).
  rewrite Hn. unfold built in *. rewrite Hd, Hb.
  destruct (Z.eqb_spec (StatusCode resp) 200) as [|_]; [contradiction|].
  cbn [ret]. unfold status_error. split; [discriminate|].
  destruct (Z.eqb_spec (StatusCode resp) 400) as [H4|H4];
    destruct (Z.eqb_spec (StatusCode resp) 401) as [H5|H5];
    destruct (Z.eqb_spec (StatusCode resp) 422) as [H6|H6];
    cbn [orb]; try lia.
  all: repeat split; intros; try lia; try contradiction.
  all: try (destruct (UnmarshalAPIError W respBytes) as [err|e];
            [right | left]; eexists; split; reflexivity).
  all: try (destruct (UnmarshalValidationError W respBytes) as [err|e];
            [right | left]; eexists; split; reflexivity).
  all: try reflexivity.
  all: destruct H as [H|H]; lia.
Qed.

(** X22: [TextToSpeech] returns bytes without error exactly when the request
    could be coded and made and the answer has status 200 and a body
    that could be read: the bytes are that body, and the request is a
    POST of the coded request to the voice's URL, as JSON.  With an
    error it returns no byte. *)
Theorem TextToSpeech_returns_body (c : Client) (voiceID : string)
    (ttsReq : TextToSpeechRequest W) (queries : list QueryFunc) :
  let url := (baseURL c ++ "/text-to-speech/" ++ voiceID)%string in
  (forall audio r,
     TextToSpeech W c voiceID ttsReq queries = (audio, None, r) <->
     exists reqBody resp,
       MarshalTextToSpeechRequest W ttsReq = inr reqBody /\
       NewRequestError W "POST" url = None /\
       r = Some (built W c "POST" url (Some reqBody) contentTypeJSON queries) /\
       Do W (built W c "POST" url (Some reqBody) contentTypeJSON queries)
         = inr resp /\
       StatusCode resp = 200%Z /\ RespBody resp = (audio, None)) /\
  (forall audio err r,
     TextToSpeech W c voiceID ttsReq queries = (audio, Some err, r) ->
     audio = []).
Proof.
  intros url. unfold TextToSpeech. fold url.
  destruct (MarshalTextToSpeechRequest W ttsReq) as [merr|reqBody].
  { split.
    - intros audio r. split; [discriminate|].
      intros (b & resp & H & _). discriminate H.
    - intros audio err r H. now injection H as <- _ _. }
  unfold doRequest, buffer_bytes, built.
  destruct (NewRequestError W "POST" url) as [err|]; cbn.
  { split.
    - intros audio r. split; [discriminate|].
      intros (b & resp & _ & H & _). discriminate H.
    - intros audio err' r H. now injection H as <- _ _. }
  destruct (Do W _) as [err|resp] eqn:Hd; cbn.
  { split.
    - intros audio r. split; [discriminate|].
      intros (b & resp & Hm & _ & _ & H & _). injection Hm as <-.
      rewrite Hd in H. discriminate H.
    - intros audio err' r H. now injection H as <- _ _. }
  destruct (RespBody resp) as [respBytes [err|]] eqn:Hb; cbn.
  { split.
    - intros audio r. split; [discriminate|].
      intros (b & resp' & Hm & _ & _ & H & _ & H2). injection Hm as <-.
      rewrite Hd in H. injection H as <-. rewrite Hb in H2. discriminate H2.
    - intros audio err' r H. now injection H as <- _ _. }
  destruct (Z.eqb_spec (StatusCode resp) 200) as [Hc|Hc]; cbn.
  - unfold copy_body, buffer_write. destruct respBytes as [|x respBytes]; cbn.
    + split.
      * intros audio r. split.
        -- intros H. injection H as <- <-. exists reqBody, resp. now repeat split.
        -- intros (b & resp' & Hm & _ & -> & H & _ & H2). injection Hm as <-.
           rewrite Hd in H. injection H as <-. rewrite Hb in H2.
           now injection H2 as <-.
      * intros audio err r H. discriminate H.
    + rewrite Nat.eqb_refl. cbn. split.
      * intros audio r. split.
        -- intros H. injection H as <- <-. exists reqBody, resp. now repeat split.
        -- intros (b & resp' & Hm & _ & -> & H & _ & H2). injection Hm as <-.
           rewrite Hd in H. injection H as <-. rewrite Hb in H2.
           now injection H2 as <-.
      * intros audio err r H. discriminate H.
  - split.
    + intros audio r. split; [discriminate|].
      intros (b & resp' & Hm & _ & _ & H & H1 & _). injection Hm as <-.
      rewrite Hd in H. injection H as <-. contradiction.
    + intros audio err' r H. now injection H as <- _ _.
Qed.

Lemma doRequest_sent_query (c : Client)
    (Write : list ascii -> nat * option error) (method urlStr : string)
    (bodyBuf : option (list ascii * option error)) (contentType : string)
    (queries : list QueryFunc) (req : Request) :
  sent (doRequest W c Write method urlStr bodyBuf contentType queries) = Some req ->
  req = built W c method urlStr (option_map fst bodyBuf) contentType queries.
Proof.
  unfold doRequest, built.
  destruct (NewRequestError W method urlStr); cbn; [discriminate|].
  destruct (Do W _) as [err|resp]; cbn; [congruence|].
  destruct (RespBody resp) as [respBytes [err|]]; cbn; [congruence|].
  destruct (StatusCode resp =? 200)%Z; cbn; [|congruence].
  destruct (copy_body W Write respBytes). cbn. congruence.
Qed.

Lemma GetHistory_next (c : Client) (queries : list QueryFunc) (np : NextPage) :
  next (GetHistory W c queries) = Some np ->
  page_queries np = queries /\
  page_last np = LastHistoryItemId W (history (GetHistory W c queries)).
Proof.
  unfold GetHistory.
  destruct (ret _); cbn; [discriminate|].
  destruct (UnmarshalHistory W _) as [err|h]; cbn; [discriminate|].
  destruct (HasMore W h); [|discriminate].
  intros H. injection H as <-. now split.
Qed.

Lemma GetHistory_sent (c : Client) (queries : list QueryFunc) (req : Request) :
  history_sent (GetHistory W c queries) = Some req ->
  req = built W c "GET" (baseURL c ++ "/history")%string (Some [])
          contentTypeJSON queries.
Proof.
  unfold GetHistory. intros H.
  apply (doRequest_sent_query c buffer_write "GET" _ (Some ([], None))).
  destruct (ret _); cbn in H; [exact H|].
  destruct (UnmarshalHistory W _); exact H.
Qed.


End RequestFacts.

(** [doRequest_writes_only_ok_body] on a first page of history. *)
Lemma doRequest_writes_only_ok_body_witness :
  list_ascii_of_string "1a" <> [] /\
  exists resp : Response,
    Do example_world
      (built example_world example_client "GET"
         (baseURL example_client ++ "/history")%string (Some [])
         contentTypeJSON []) = inr resp /\
    StatusCode resp = 200%Z /\
    RespBody resp = (list_ascii_of_string "1a", None).
Proof.
  apply (doRequest_writes_only_ok_body example_world example_client
           buffer_write "GET" (baseURL example_client ++ "/history")%string
           (Some ([], None)) contentTypeJSON []).
  reflexivity.
Defined.

(** [doRequest_status_errors] on a request refused with status 401. *)
Lemma doRequest_status_errors_witness :
  let r := ret (doRequest denied_world example_client buffer_write "GET"
                  (baseURL example_client ++ "/voices")%string
                  (Some ([], None)) contentTypeJSON []) in
  r <> None /\
  (401%Z = 400%Z \/ 401%Z = 401%Z ->
   (exists e, UnmarshalAPIError denied_world (list_ascii_of_string "bad key")
                = inr e /\ r = Some (IsAPIError e)) \/
   (exists err, UnmarshalAPIError denied_world (list_ascii_of_string "bad key")
                  = inl err /\ r = Some (UnmarshalAPIErrorFailed err))) /\
  (401%Z = 422%Z ->
   (exists e, UnmarshalValidationError denied_world
                (list_ascii_of_string "bad key") = inr e /\
              r = Some (IsValidationError e)) \/
   (exists err, UnmarshalValidationError denied_world
                  (list_ascii_of_string "bad key") = inl err /\
                r = Some (UnmarshalValidationErrorFailed err))) /\
  (401%Z <> 400%Z -> 401%Z <> 401%Z -> 401%Z <> 422%Z ->
   r = Some (UnexpectedStatus 401)).
Proof.
  apply (doRequest_status_errors denied_world example_client buffer_write
           "GET" (baseURL example_client ++ "/voices")%string
           (Some ([], None)) contentTypeJSON []
           {| StatusCode := 401;
              RespBody := (list_ascii_of_string "bad key", None) |}
           (list_ascii_of_string "bad key"));
    [reflexivity | reflexivity | reflexivity | discriminate].
Defined.


End HttpFacts.
